(** * saltfactories.plugins.log_server: the log server

    A shallow embedding of [src/saltfactories/plugins/log_server.py]: the
    [LogServer] object with its [start], [stop] and [process_logs] methods,
    and the properties of its start/stop handshake, receive loop and legacy
    record normalisation.

    Conventions.
    - Time is an integer number of milliseconds.  One "time unit" of the
      specification is one second, [seconds 1 = 1000]: the source writes
      [wait(5)], [join(7)], [exit_timeout_seconds = 5] in seconds and
      [poller.poll(1000)], [sender.close(1000)] in milliseconds.
    - A Python [str] is a Rocq [string] holding its UTF-8 encoding; a Python
      [bytes] is a [list byte].  [bytes.decode("utf-8")] therefore keeps the
      bytes and only checks that they are well-formed UTF-8.
    - A Python [dict] is an association list in insertion order with
      pairwise distinct keys.
    - Everything outside the process (the sockets, the clock, the other
      thread, the logging handlers) is an explicit input: what each external
      call returned or raised, and how long it blocked. *)

From Stdlib Require Import ZArith List Strings.String Strings.Byte Bool Lia.
From Stdlib Require Import DecimalString.
Import ListNotations.
Set Warnings "-register-all".
Open Scope string_scope.
Open Scope list_scope.
Open Scope Z_scope.

(** ** Python values *)

Module Py.

(** The exception classes the source distinguishes.  [EOFError],
    [KeyboardInterrupt] and [SystemExit] are the ones named by the first
    [except] clause of the receive loop; every other constructor stands for
    a subclass of [Exception] that is none of these. *)
Inductive exn : Type :=
| EOFError
| KeyboardInterrupt
| SystemExit
| ZMQError
| KeyError
| TypeError
| UnicodeDecodeError
| RuntimeError (msg : string)
| OtherException (name : string).

(** Keys of a mapping decoded by msgpack: text or raw bytes. *)
Inductive key : Type :=
| KStr (s : string)
| KBytes (b : list byte).

(** Values msgpack can decode. A float is kept as its 64 bits. *)
Inductive value : Type :=
| VNone
| VBool (b : bool)
| VInt (z : Z)
| VFloat (bits : Z)
| VStr (s : string)
| VBytes (b : list byte)
| VList (l : list value)
| VDict (d : list (key * value)).

Definition dict : Type := list (key * value).

Definition key_eq_dec (a b : key) : {a = b} + {a <> b}.
Proof.
  decide equality.
  - apply string_dec.
  - apply (list_eq_dec Byte.byte_eq_dec).
Defined.

Definition key_eqb (a b : key) : bool :=
  if key_eq_dec a b then true else false.

(** [d[k]] lookup ([None] is Python's [KeyError]). *)
Fixpoint dict_get (k : key) (d : dict) : option value :=
  match d with
  | [] => None
  | (k', v) :: rest => if key_eqb k k' then Some v else dict_get k rest
  end.

(** [d[k] = v]: an existing key keeps its position, a new key goes last. *)
Fixpoint dict_set (k : key) (v : value) (d : dict) : dict :=
  match d with
  | [] => [(k, v)]
  | (k', v') :: rest =>
      if key_eqb k k' then (k', v) :: rest else (k', v') :: dict_set k v rest
  end.

Definition keys (d : dict) : list key := map fst d.

(** *** [bytes.decode("utf-8")] *)

Definition byte_in (lo hi : N) (b : byte) : bool :=
  let n := Byte.to_N b in (N.leb lo n && N.leb n hi)%bool.

Definition is_cont (b : byte) : bool := byte_in 0x80 0xBF b.

(** Allowed second byte of a three-byte sequence: no overlong forms, no
    surrogates. *)
Definition second_of_3 (b0 b1 : byte) : bool :=
  if byte_in 0xE0 0xE0 b0 then byte_in 0xA0 0xBF b1
  else if byte_in 0xED 0xED b0 then byte_in 0x80 0x9F b1
  else is_cont b1.

(** Allowed second byte of a four-byte sequence: no overlong forms, nothing
    above U+10FFFF. *)
Definition second_of_4 (b0 b1 : byte) : bool :=
  if byte_in 0xF0 0xF0 b0 then byte_in 0x90 0xBF b1
  else if byte_in 0xF4 0xF4 b0 then byte_in 0x80 0x8F b1
  else is_cont b1.

(** Strict UTF-8 well-formedness, as Python's decoder checks it. *)
Fixpoint utf8_valid (bs : list byte) : bool :=
  match bs with
  | [] => true
  | b0 :: t0 =>
      if byte_in 0x00 0x7F b0 then utf8_valid t0
      else
        match t0 with
        | [] => false
        | b1 :: t1 =>
            if byte_in 0xC2 0xDF b0 then (is_cont b1 && utf8_valid t1)%bool
            else
              match t1 with
              | [] => false
              | b2 :: t2 =>
                  if byte_in 0xE0 0xEF b0
                  then (second_of_3 b0 b1 && is_cont b2 && utf8_valid t2)%bool
                  else
                    match t2 with
                    | [] => false
                    | b3 :: t3 =>
                        (byte_in 0xF0 0xF4 b0 && second_of_4 b0 b1
                         && is_cont b2 && is_cont b3 && utf8_valid t3)%bool
                    end
              end
        end
  end.

(** [b.decode("utf-8")] *)
Definition decode (b : list byte) : exn + string :=
  if utf8_valid b then inr (string_of_list_byte b) else inl UnicodeDecodeError.

(** [b"..."] literals, for examples. *)
Definition b (s : string) : list byte := list_byte_of_string s.

End Py.

Import Py.

(** ** The record codec: the legacy pass of [process_logs] *)

Module Codec.

(** One turn of the [for key, value in record_dict.copy().items()] loop
    (lines 176-185): decode the value if it is bytes, then the key if it is
    bytes, and store the pair under the (decoded) key only if one of the two
    was decoded. *)
Definition legacy_entry (kv : key * value) (record_dict : dict) : exn + dict :=
  let '(key0, value0) := kv in
  let value_step : exn + (value * bool) :=
    match value0 with
    | VBytes raw =>
        match decode raw with
        | inl e => inl e
        | inr s => inr (VStr s, false)
        end
    | _ => inr (value0, true)
    end in
  match value_step with
  | inl e => inl e
  | inr (value1, skip_update) =>
      let key_step : exn + (key * bool) :=
        match key0 with
        | KBytes raw =>
            match decode raw with
            | inl e => inl e
            | inr s => inr (KStr s, false)
            end
        | KStr _ => inr (key0, skip_update)
        end in
      match key_step with
      | inl e => inl e
      | inr (key1, skip_update) =>
          if skip_update then inr record_dict
          else inr (dict_set key1 value1 record_dict)
      end
  end.

(** The loop over the snapshot [items] that updates [record_dict]. *)
Fixpoint legacy_pass (items : list (key * value)) (record_dict : dict)
  : exn + dict :=
  match items with
  | [] => inr record_dict
  | kv :: rest =>
      match legacy_entry kv record_dict with
      | inl e => inl e
      | inr record_dict' => legacy_pass rest record_dict'
      end
  end.

(** Lines 172-185: [record_dict["message"]], and on [KeyError] the legacy
    pass over a copy of the items.  The argument is whatever msgpack
    decoded, except [None]; subscripting anything but a mapping with a
    string raises [TypeError]. *)
Definition normalize (record_dict : value) : exn + dict :=
  match record_dict with
  | VDict d =>
      match dict_get (KStr "message") d with
      | Some _ => inr d
      | None => legacy_pass d d
      end
  | _ => inl TypeError
  end.

(** A mapping all of whose keys and values are text. *)
Definition text_entry (kv : key * value) : bool :=
  match kv with
  | (KStr _, VStr _) => true
  | _ => false
  end.

Definition all_text (d : dict) : bool := forallb text_entry d.

(** A legacy mapping: every key and every value is a byte sequence that is
    well-formed UTF-8. *)
Definition bytes_entry (kv : key * value) : bool :=
  match kv with
  | (KBytes k, VBytes v) => (utf8_valid k && utf8_valid v)%bool
  | _ => false
  end.

Definition all_bytes (d : dict) : bool := forallb bytes_entry d.

(** The text-only record carrying the same payload as a legacy record. *)
Definition as_text_entry (kv : key * value) : key * value :=
  match kv with
  | (KBytes k, VBytes v) => (KStr (string_of_list_byte k), VStr (string_of_list_byte v))
  | _ => kv
  end.

Definition text_only (d : dict) : dict := map as_text_entry d.

End Codec.

(** ** The server object and the effects of its methods *)

Module LogServer.

Definition seconds (n : Z) : Z := n * 1000.

Inductive level : Type := DEBUG | INFO | WARNING | ERROR.

(** What the methods do to the outside, in program order: calls of the
    module logger [log] and calls on sockets, events and the thread. *)
Inductive call : Type :=
| Log (lvl : level) (fmt : string)
| NewEvents                      (* the two [threading.Event()] of [start] *)
| ThreadStart                    (* [process_queue_thread.start()] *)
| RunningWait (timeout : Z)      (* [running_event.wait] *)
| RunningSet
| RunningClear
| SenderConnect (host : string) (port : Z)
| SenderSend (payload : list byte)
| SentinelWait (timeout : Z)     (* [sentinel_event.wait] *)
| SentinelSet
| SenderClose (linger : Z)
| ContextTerm
| ThreadJoin (timeout : Z)
| PullerBind (host : string) (port : Z)
| PullerClose (linger : Z).

(** A record as it reaches the sink: the logger it is handled by
    ([record.name], [None] when the mapping has no ["name"]) and the mapping
    [makeLogRecord] was given. *)
Record delivery : Type := { logger : value; record : dict }.

(** The [LogServer] instance together with the world it acts on. *)
Record Server : Type := {
  log_host : string;
  log_port : Z;
  socket_hwm : Z;
  running_event : bool;       (* the "ready"/"running" signal *)
  sentinel_event : bool;      (* the "sentinel-received" signal *)
  now : Z;                    (* the wall clock, in milliseconds *)
  journal : list call;        (* calls made so far, oldest first *)
  sink : list delivery        (* records handled so far, oldest first *)
}.

Definition with_running (v : bool) (s : Server) : Server :=
  {| log_host := log_host s; log_port := log_port s; socket_hwm := socket_hwm s;
     running_event := v; sentinel_event := sentinel_event s;
     now := now s; journal := journal s; sink := sink s |}.

Definition with_sentinel (v : bool) (s : Server) : Server :=
  {| log_host := log_host s; log_port := log_port s; socket_hwm := socket_hwm s;
     running_event := running_event s; sentinel_event := v;
     now := now s; journal := journal s; sink := sink s |}.

Definition with_now (t : Z) (s : Server) : Server :=
  {| log_host := log_host s; log_port := log_port s; socket_hwm := socket_hwm s;
     running_event := running_event s; sentinel_event := sentinel_event s;
     now := t; journal := journal s; sink := sink s |}.

Definition with_journal (j : list call) (s : Server) : Server :=
  {| log_host := log_host s; log_port := log_port s; socket_hwm := socket_hwm s;
     running_event := running_event s; sentinel_event := sentinel_event s;
     now := now s; journal := j; sink := sink s |}.

Definition with_sink (k : list delivery) (s : Server) : Server :=
  {| log_host := log_host s; log_port := log_port s; socket_hwm := socket_hwm s;
     running_event := running_event s; sentinel_event := sentinel_event s;
     now := now s; journal := journal s; sink := k |}.

(** *** A state monad in which a raised exception keeps the state *)

Definition M (A : Type) : Type := Server -> (exn + A) * Server.

Definition ret {A} (a : A) : M A := fun s => (inr a, s).

Definition raise {A} (e : exn) : M A := fun s => (inl e, s).

Definition bind {A B} (m : M A) (f : A -> M B) : M B :=
  fun s =>
    match m s with
    | (inl e, s') => (inl e, s')
    | (inr a, s') => f a s'
    end.

#[local] Notation "x <- c1 ;; c2" := (bind c1 (fun x => c2))
  (at level 61, c1 at next level, right associativity).
#[local] Notation "c1 ;; c2" := (bind c1 (fun _ => c2))
  (at level 61, right associativity).

(** [try: body finally: cleanup] *)
Definition try_finally {A} (body : M A) (cleanup : M unit) : M A :=
  fun s =>
    match body s with
    | (r, s') =>
        match cleanup s' with
        | (inl e, s'') => (inl e, s'')
        | (inr _, s'') => (r, s'')
        end
    end.

(** The result of an external call that the environment decided. *)
Definition lift {A} (r : exn + A) : M A :=
  match r with
  | inl e => raise e
  | inr a => ret a
  end.

Definition emit (c : call) : M unit :=
  fun s => (inr tt, with_journal (journal s ++ [c]) s).

Definition log (lvl : level) (fmt : string) : M unit := emit (Log lvl fmt).

(** [time.time()] *)
Definition time_time : M Z := fun s => (inr (now s), s).

(** Time passing while a call blocks. *)
Definition elapse (d : Z) : M unit :=
  fun s => (inr tt, with_now (now s + Z.max 0 d) s).

Definition is_set_running : M bool := fun s => (inr (running_event s), s).

Definition set_running : M unit :=
  emit RunningSet ;; (fun s => (inr tt, with_running true s)).

Definition clear_running : M unit :=
  emit RunningClear ;; (fun s => (inr tt, with_running false s)).

Definition set_sentinel : M unit :=
  emit SentinelSet ;; (fun s => (inr tt, with_sentinel true s)).

(** Code run by the other thread while this one is blocked: its exceptions
    end that thread and do not reach the caller. *)
Definition in_thread {A} (m : M A) : M unit :=
  fun s => (inr tt, snd (m s)).

Definition get : M Server := fun s => (inr s, s).

Definition is_set_sentinel : M bool := fun s => (inr (sentinel_event s), s).

(** *** [process_logs]: the worker thread *)

(** What [poller.poll(timeout)] meets: nothing within the timeout, a message
    readable [after] milliseconds into the call, or an exception. *)
Inductive poll_outcome : Type :=
| NoEvent
| Event (after : Z)
| PollRaises (e : exn).

(** What one turn of the [while True] loop meets. *)
Record Obs : Type := {
  ctl_clear : bool;             (* the controller has called
                                   [running_event.clear()] since the last turn *)
  polled : poll_outcome;        (* [poller.poll(1000)] *)
  received : exn + list byte;   (* [puller.recv()] *)
  unpacked : exn + value;       (* [msgpack.loads(msg, raw=False)] *)
  handled : option exn;         (* what [makeLogRecord], [getLogger] or
                                   [logger.handle] raised, if anything *)
  busy : Z                      (* time spent receiving, decoding, handling *)
}.

Inductive flow : Type := Continue | Break.

Inductive thread_status : Type := Looping | Returned.

Definition exit_timeout_seconds : Z := 5.

(** [poller.poll(timeout)]: true when there is something to receive. *)
Definition poll (timeout : Z) (o : poll_outcome) : M bool :=
  match o with
  | NoEvent => elapse timeout ;; ret false
  | Event after => elapse (Z.min after timeout) ;; ret true
  | PollRaises e => raise e
  end.

(** [running_event.clear()] called by the controller thread. *)
Definition controller_clears (o : Obs) : M unit :=
  fun s => (inr tt, if ctl_clear o then with_running false s else s).

(** Lines 146-161: the exit deadline, checked only while the running flag
    is cleared. *)
Definition drain_check (exit_timeout : option Z) : M (flow * option Z) :=
  running <- is_set_running ;;
  if running then ret (Continue, exit_timeout)
  else
    deadline <-
      match exit_timeout with
      | None =>
          log DEBUG "%s Waiting %d seconds to process any remaning log messages before exiting..." ;;
          t <- time_time ;;
          ret (t + seconds exit_timeout_seconds)
      | Some d => ret d
      end ;;
    t <- time_time ;;
    if deadline <=? t
    then log DEBUG "%s Unable to process remaining log messages in time. Exiting anyway." ;;
         ret (Break, Some deadline)
    else ret (Continue, Some deadline).

(** [record.name] of [makeLogRecord(record_dict)]. *)
Definition record_name (record_dict : dict) : value :=
  match dict_get (KStr "name") record_dict with
  | Some v => v
  | None => VNone
  end.

(** Lines 188-190: hand the record to the logger of its name. *)
Definition forward (record_dict : dict) (handled : option exn) : M unit :=
  match handled with
  | Some e => raise e
  | None =>
      fun s =>
        (inr tt,
         with_sink (sink s ++ [{| logger := record_name record_dict;
                                  record := record_dict |}]) s)
  end.

(** Lines 163-190: the body of the [try] of one turn. *)
Definition receive (o : Obs) : M flow :=
  ready <- poll 1000 (polled o) ;;
  if negb ready then ret Continue
  else
    elapse (busy o) ;;
    _ <- lift (received o) ;;
    record_dict <- lift (unpacked o) ;;
    match record_dict with
    | VNone =>
        log INFO "%s Received the sentinel to shutdown" ;;
        set_sentinel ;;
        ret Break
    | _ =>
        d <- lift (Codec.normalize record_dict) ;;
        forward d (handled o) ;;
        ret Continue
    end.

(** The exceptions of the first [except] clause (line 191). *)
Definition leaves_loop (e : exn) : bool :=
  match e with
  | EOFError | KeyboardInterrupt | SystemExit => true
  | _ => false
  end.

(** Lines 191-199: the two [except] clauses around the body. *)
Definition guarded (body : M flow) : M flow :=
  fun s =>
    match body s with
    | (inr f, s') => (inr f, s')
    | (inl e, s') =>
        if leaves_loop e then (inr Break, s')
        else (log WARNING "%s An exception occurred in the processing queue thread: %s" ;;
              ret Continue) s'
    end.

(** One turn of the loop, lines 146-199. *)
Definition iteration (o : Obs) (exit_timeout : option Z) : M (flow * option Z) :=
  controller_clears o ;;
  c <- drain_check exit_timeout ;;
  match c with
  | (Break, exit_timeout') => ret (Break, exit_timeout')
  | (Continue, exit_timeout') =>
      f <- guarded (receive o) ;;
      ret (f, exit_timeout')
  end.

(** The [while True] loop over the turns the environment provides.  When
    they run out the worker is still in the loop ([Continue]). *)
Fixpoint while_true (os : list Obs) (exit_timeout : option Z)
  : M (flow * option Z) :=
  match os with
  | [] => ret (Continue, exit_timeout)
  | o :: rest =>
      r <- iteration o exit_timeout ;;
      match r with
      | (Break, exit_timeout') => ret (Break, exit_timeout')
      | (Continue, exit_timeout') => while_true rest exit_timeout'
      end
  end.

(** [process_logs], lines 122-203.  [bind_raises] is what [puller.bind]
    raised, if anything.  The [finally] clause is reached by leaving the
    loop: no turn of the loop raises (see [while_true_returns]). *)
Definition process_logs (bind_raises : option exn) (os : list Obs)
  : M thread_status :=
  self <- get ;;
  let exit_timeout : option Z := None in
  bound <-
    match bind_raises with
    | None => emit (PullerBind (log_host self) (log_port self)) ;; ret true
    | Some ZMQError => log ERROR "%s Unable to bind to puller at %s" ;; ret false
    | Some e => raise e
    end ;;
  if negb bound then ret Returned
  else
    set_running ;;
    r <- while_true os exit_timeout ;;
    match r with
    | (Continue, _) => ret Looping
    | (Break, _) =>
        emit (PullerClose 1) ;;
        emit ContextTerm ;;
        log DEBUG "%s Process log thread terminated" ;;
        ret Returned
    end.

(** *** [start] and [stop]: the controller *)

(** [running_event.wait(timeout)] while the worker starts up: the worker
    reaches the end of its start-up [ready_after] milliseconds into the
    wait.  The result is whether the flag was set in time. *)
Definition running_event_wait (timeout : Z) (bind_raises : option exn)
    (ready_after : Z) : M bool :=
  emit (RunningWait timeout) ;;
  t0 <- time_time ;;
  (if ready_after <=? timeout
   then elapse ready_after ;; in_thread (process_logs bind_raises [])
   else ret tt) ;;
  flag <- is_set_running ;;
  if flag then ret true
  else (fun s => (inr tt, with_now (t0 + timeout) s)) ;; ret false.

(** [start], lines 70-83. *)
Definition start (bind_raises : option exn) (ready_after : Z) : M unit :=
  log INFO "%s starting..." ;;
  emit NewEvents ;;
  (fun s => (inr tt, with_running false (with_sentinel false s))) ;;
  emit ThreadStart ;;
  ready <- running_event_wait (seconds 5) bind_raises ready_after ;;
  if negb ready
  then clear_running ;; raise (RuntimeError "Failed to start the log server")
  else log INFO "%s started".

(** What [stop] meets. *)
Record Fate : Type := {
  send_raises : option exn;   (* what [sender.send] raised, if anything *)
  ack_after : option Z;       (* when the worker sets [sentinel_event],
                                 counted from the start of the wait *)
  linger : Z;                 (* how long the unsent sentinel keeps
                                 [context.term()] waiting *)
  thread_exit : option Z      (* when the worker thread ends, counted from
                                 the start of the first join *)
}.

(** [msgpack.dumps(None)]: the nil byte. *)
Definition sentinel_payload : list byte := [xc0].

(** [sentinel_event.wait(timeout)] *)
Definition sentinel_event_wait (timeout : Z) (ack_after : option Z) : M bool :=
  emit (SentinelWait timeout) ;;
  flag <- is_set_sentinel ;;
  if flag then ret true
  else
    match ack_after with
    | Some t =>
        if t <=? timeout
        then elapse t ;; (fun s => (inr tt, with_sentinel true s)) ;; ret true
        else elapse timeout ;; ret false
    | None => elapse timeout ;; ret false
    end.

(** The worker thread as [stop] sees it. *)
Inductive thread : Type :=
| Finished
| Alive (exits_in : option Z).

Definition is_alive (th : thread) : bool :=
  match th with
  | Finished => false
  | Alive _ => true
  end.

(** [process_queue_thread.join(timeout)] *)
Definition join (timeout : Z) (th : thread) : M thread :=
  emit (ThreadJoin timeout) ;;
  match th with
  | Finished => ret Finished
  | Alive None => elapse timeout ;; ret (Alive None)
  | Alive (Some t) =>
      if t <=? timeout then elapse t ;; ret Finished
      else elapse timeout ;; ret (Alive (Some (t - timeout)))
  end.

(** [sender.close(linger)] then [context.term()]: [term] waits for the
    queued message to leave, at most for the linger period. *)
Definition close_sender (linger_ms : Z) (pending : Z) : M unit :=
  emit (SenderClose linger_ms) ;;
  emit ContextTerm ;;
  elapse (Z.min pending linger_ms).

(** [stop], lines 85-120. *)
Definition stop (f : Fate) : M unit :=
  log INFO "%s stopping..." ;;
  self <- get ;;
  emit (SenderConnect (log_host self) (log_port self)) ;;
  try_finally
    (emit (SenderSend sentinel_payload) ;;
     match send_raises f with
     | Some e => raise e
     | None =>
         log DEBUG "%s Sent sentinel to trigger log server shutdown" ;;
         acked <- sentinel_event_wait (seconds 5) (ack_after f) ;;
         if negb acked
         then log WARNING "%s Failed to wait for the reception of the stop sentinel message. Stopping anyway."
         else ret tt
     end)
    (close_sender 1000 (linger f)) ;;
  clear_running ;;
  log INFO "%s Joining the logging server process thread" ;;
  th <- join (seconds 7) (Alive (thread_exit f)) ;;
  if negb (is_alive th) then log DEBUG "%s Stopped"
  else
    log WARNING "%s The logging server thread is still running. Waiting a little longer..." ;;
    th <- join (seconds 5) th ;;
    if negb (is_alive th) then log DEBUG "%s Stopped"
    else log WARNING "%s The logging server thread is still running...".

End LogServer.

(** ** Vocabulary of the statements *)

Module Scenario.

Import Codec LogServer.

(** A turn in which a valid record arrives: a message is readable, it is
    received, it decodes to something the normalisation accepts as the
    mapping [d], and handing it to its logger raises nothing. *)
Inductive valid_record (o : Obs) (d : dict) : Prop :=
| valid_record_intro (a : Z) (m : list byte) (w : value) :
    polled o = Event a ->
    received o = inr m ->
    unpacked o = inr w ->
    normalize w = inr d ->
    handled o = None ->
    valid_record o d.

(** A turn in which the poll times out. *)
Definition idle (o : Obs) : Prop := polled o = NoEvent.

(** A turn in which the sentinel arrives. *)
Inductive sentinel_turn (o : Obs) : Prop :=
| sentinel_turn_intro (a : Z) (m : list byte) :
    polled o = Event a ->
    received o = inr m ->
    unpacked o = inr VNone ->
    sentinel_turn o.

(** [stream os ds]: in the turns [os] exactly the valid records [ds]
    arrive, in this order, possibly separated by polls that time out. *)
Inductive stream : list Obs -> list dict -> Prop :=
| stream_nil : stream [] []
| stream_idle (o : Obs) (os : list Obs) (ds : list dict) :
    idle o -> stream os ds -> stream (o :: os) ds
| stream_record (o : Obs) (os : list Obs) (d : dict) (ds : list dict) :
    valid_record o d -> stream os ds -> stream (o :: os) (d :: ds).

(** The controller leaves the running flag alone during these turns. *)
Definition undisturbed (os : list Obs) : Prop :=
  Forall (fun o => ctl_clear o = false) os.

(** What the sink holds for a forwarded mapping. *)
Definition delivered (d : dict) : delivery :=
  {| logger := record_name d; record := d |}.

(** [raises o e]: the body of the turn [o] raises [e] while polling,
    receiving, decoding, normalising or forwarding its message. *)
Inductive raises (o : Obs) (e : exn) : Prop :=
| raises_poll :
    polled o = PollRaises e -> raises o e
| raises_recv (a : Z) :
    polled o = Event a -> received o = inl e -> raises o e
| raises_loads (a : Z) (m : list byte) :
    polled o = Event a -> received o = inr m -> unpacked o = inl e ->
    raises o e
| raises_normalize (a : Z) (m : list byte) (w : value) :
    polled o = Event a -> received o = inr m -> unpacked o = inr w ->
    w <> VNone -> normalize w = inl e ->
    raises o e
| raises_handle (a : Z) (m : list byte) (w : value) (d : dict) :
    polled o = Event a -> received o = inr m -> unpacked o = inr w ->
    w <> VNone -> normalize w = inr d -> handled o = Some e ->
    raises o e.

(** [spares k kv]: the turn of the legacy pass for the entry [kv] does not
    write under the text key [k]. *)
Definition spares (k : string) (kv : key * value) : Prop :=
  match kv with
  | (KStr k', VBytes _) => k' <> k
  | (KStr _, _) => True
  | (KBytes raw, _) => decode raw <> inr k
  end.

(** A value that is not a byte sequence. *)
Definition not_bytes (v : value) : Prop :=
  match v with
  | VBytes _ => False
  | _ => True
  end.

(** A server as constructed, before [start]. *)
Definition fresh : Server :=
  {| log_host := "127.0.0.1"; log_port := 4505; socket_hwm := 1000000;
     running_event := false; sentinel_event := false;
     now := 0; journal := []; sink := [] |}.

(** Turns for the examples. *)
Definition turn_record (w : value) (h : option exn) : Obs :=
  {| ctl_clear := false; polled := Event 0; received := inr [];
     unpacked := inr w; handled := h; busy := 0 |}.

Definition turn_idle (cleared : bool) : Obs :=
  {| ctl_clear := cleared; polled := NoEvent; received := inl ZMQError;
     unpacked := inl (OtherException "unused"); handled := None; busy := 0 |}.

Definition turn_garbage : Obs :=
  {| ctl_clear := false; polled := Event 0; received := inr [xc1];
     unpacked := inl (OtherException "FormatError"); handled := None;
     busy := 0 |}.

(** Whether [stop] sees the sentinel acknowledged within its wait. *)
Definition acked (f : Fate) (s : Server) : bool :=
  (sentinel_event s ||
   match ack_after f with
   | Some t => t <=? seconds 5
   | None => false
   end)%bool.

(** Whether the worker thread has ended by the end of the first join and
    by the end of the second. *)
Definition gone_after_first_join (f : Fate) : bool :=
  match thread_exit f with
  | Some t => t <=? seconds 7
  | None => false
  end.

Definition gone_after_second_join (f : Fate) : bool :=
  match thread_exit f with
  | Some t => t <=? seconds 7 + seconds 5
  | None => false
  end.

(** The fate in which nothing [stop] waits for ever happens. *)
Definition worst : Fate :=
  {| send_raises := None; ack_after := None; linger := 1000;
     thread_exit := None |}.

(** The fate of an orderly shutdown. *)
Definition orderly : Fate :=
  {| send_raises := None; ack_after := Some 3; linger := 0;
     thread_exit := Some 4 |}.

(** [lasts m t]: the computation [m] takes at most [t] milliseconds, never
    turns the clock back, and leaves the running flag alone. *)
Definition lasts {A : Type} (m : M A) (t : Z) : Prop :=
  forall s : Server,
    now s <= now (snd (m s)) <= now s + t /\
    running_event (snd (m s)) = running_event s.

(** The running flag is cleared when the turn [o] checks it. *)
Definition cleared (s : Server) (o : Obs) : Prop :=
  running_event s = false \/ ctl_clear o = true.

End Scenario.

(** ** The pytest hooks of the module *)

Module Plugin.

Import LogServer.

(** The numeric levels of [logging]. *)
Definition logging_CRITICAL : Z := 50.
Definition logging_ERROR : Z := 40.
Definition logging_WARNING : Z := 30.
Definition logging_INFO : Z := 20.
Definition logging_DEBUG : Z := 10.
Definition logging_NOTSET : Z := 0.

(** What reading a level off pytest's logging plugin gives: the attribute
    chain is missing, the level is [None], or it is a number. *)
Inductive setting : Type :=
| AttributeError
| IsNone
| Level (n : Z).

(** Lines 214-220 and 221-227: [levels.append(level)] unless the level is
    [None] or reading it raised [AttributeError]. *)
Definition append_level (a : setting) (levels : list Z) : list Z :=
  match a with
  | Level n => levels ++ [n]
  | IsNone => levels
  | AttributeError => levels
  end.

(** [levels.pop(levels.index(x))]: the first occurrence of [x] goes. *)
Fixpoint pop_first (x : Z) (levels : list Z) : list Z :=
  match levels with
  | [] => []
  | y :: rest => if x =? y then rest else y :: pop_first x rest
  end.

(** [min(levels)], which raises [ValueError] on an empty list. *)
Fixpoint py_min (levels : list Z) : exn + Z :=
  match levels with
  | [] => inl (OtherException "ValueError")
  | x :: rest =>
      match rest with
      | [] => inr x
      | _ :: _ =>
          match py_min rest with
          | inl e => inl e
          | inr m => inr (Z.min x m)
          end
      end
  end.

(** [logging.getLevelName] on a number, with the names [logging] starts
    with. *)
Definition getLevelName (n : Z) : string :=
  if n =? logging_CRITICAL then "CRITICAL"
  else if n =? logging_ERROR then "ERROR"
  else if n =? logging_WARNING then "WARNING"
  else if n =? logging_INFO then "INFO"
  else if n =? logging_DEBUG then "DEBUG"
  else if n =? logging_NOTSET then "NOTSET"
  else String.append "Level " (NilZero.string_of_int (Z.to_int n)).

(** Lines 211-231: the levels [min] is taken of. *)
Definition session_levels (cli file : setting) : list Z :=
  let levels := [logging_ERROR] in
  let levels := append_level cli levels in
  let levels := append_level file levels in
  if existsb (Z.eqb logging_NOTSET) levels
  then pop_first logging_NOTSET levels
  else levels.

(** Line 233, before the name is looked up: [min(levels)]. *)
Definition session_level (cli file : setting) : exn + Z :=
  py_min (session_levels cli file).

(** [pytest_configure], lines 207-236: the [log_level] the [LogServer] is
    constructed with, from the level of the CLI log handler and the level
    of the log file. *)
Definition pytest_configure (cli file : setting) : exn + string :=
  match session_level cli file with
  | inl e => inl e
  | inr n => inr (getLevelName n)
  end.

(** [pytest_sessionstart] and [pytest_sessionfinish], lines 240-254, call
    [start] and [stop] of the registered server. *)
Definition pytest_sessionstart (bind_raises : option exn) (ready_after : Z)
  : M unit :=
  start bind_raises ready_after.

Definition pytest_sessionfinish (f : Fate) : M unit := stop f.

End Plugin.

(** ** More vocabulary *)

Module Cases.

Import Codec LogServer.

(** A record in the values-only legacy encoding: every key is text and
    every value that is a byte sequence is well-formed UTF-8. *)
Definition text_keyed_entry (kv : key * value) : bool :=
  match kv with
  | (KStr _, VBytes v) => utf8_valid v
  | (KStr _, _) => true
  | (KBytes _, _) => false
  end.

Definition text_keyed (d : dict) : bool := forallb text_keyed_entry d.

(** The entry with its value decoded if it is a byte sequence. *)
Definition decode_value (kv : key * value) : key * value :=
  match kv with
  | (k, VBytes v) => (k, VStr (string_of_list_byte v))
  | _ => kv
  end.

(** An entry with a byte-sequence key or value that is not well-formed
    UTF-8. *)
Definition undecodable_entry (kv : key * value) : bool :=
  (match snd kv with
   | VBytes raw => negb (utf8_valid raw)
   | _ => false
   end ||
   match fst kv with
   | KBytes raw => negb (utf8_valid raw)
   | KStr _ => false
   end)%bool.

(** No turn of the run decodes the sentinel. *)
Definition no_sentinel (os : list Obs) : Prop :=
  Forall (fun o => unpacked o <> inr VNone) os.

(** The warning of the second [except] clause. *)
Definition loop_warning : call :=
  Log WARNING "%s An exception occurred in the processing queue thread: %s".

(** What [process_logs] appends when it leaves the loop. *)
Definition release : list call :=
  [PullerClose 1; ContextTerm; Log DEBUG "%s Process log thread terminated"].

(** The lower of a configured level and [n]; [n] when none is
    configured. *)
Definition lower (a : Plugin.setting) (n : Z) : Z :=
  match a with
  | Plugin.Level m => Z.min m n
  | _ => n
  end.

End Cases.

(** * Properties *)

(** ** Mappings *)

Section DictFacts.

Import Codec.

Lemma key_eqb_refl (k : key) : key_eqb k k = true.
Proof. unfold key_eqb. destruct (key_eq_dec k k); congruence. Qed.

Lemma key_eqb_neq (k k' : key) : k <> k' -> key_eqb k k' = false.
Proof. unfold key_eqb. destruct (key_eq_dec k k'); congruence. Qed.

Lemma key_eqb_eq (k k' : key) : key_eqb k k' = true -> k = k'.
Proof. unfold key_eqb. destruct (key_eq_dec k k'); congruence. Qed.

Lemma dict_get_app (k : key) (d1 d2 : dict) :
  dict_get k (d1 ++ d2) =
  match dict_get k d1 with
  | Some v => Some v
  | None => dict_get k d2
  end.
Proof.
  induction d1 as [|[k' v'] d1 IH]; simpl; [reflexivity|].
  destruct (key_eqb k k'); [reflexivity|exact IH].
Qed.

Lemma dict_get_absent (k : key) (d : dict) :
  ~ In k (keys d) -> dict_get k d = None.
Proof.
  induction d as [|[k' v'] d IH]; simpl; intros Hn; [reflexivity|].
  rewrite key_eqb_neq by (intros ->; apply Hn; now left).
  apply IH. intros Hin. apply Hn. now right.
Qed.

Lemma dict_get_present (k : key) (v : value) (d : dict) :
  NoDup (keys d) -> In (k, v) d -> dict_get k d = Some v.
Proof.
  induction d as [|[k' v'] d IH]; simpl; intros Hnd Hin; [contradiction|].
  inversion Hnd as [|? ? Hfresh Hnd']; subst.
  destruct Hin as [Heq|Hin].
  - inversion Heq; subst. now rewrite key_eqb_refl.
  - rewrite key_eqb_neq; [now apply IH|].
    intros ->. apply Hfresh. change k' with (fst (k', v)). now apply in_map.
Qed.

Lemma dict_set_fresh (k : key) (v : value) (d : dict) :
  dict_get k d = None -> dict_set k v d = d ++ [(k, v)].
Proof.
  induction d as [|[k' v'] d IH]; simpl; [reflexivity|].
  destruct (key_eqb k k'); [discriminate|].
  intros H. now rewrite IH.
Qed.

Lemma dict_get_set_same (k : key) (v : value) (d : dict) :
  dict_get k (dict_set k v d) = Some v.
Proof.
  induction d as [|[k' v'] d IH]; simpl.
  - now rewrite key_eqb_refl.
  - destruct (key_eqb k k') eqn:E; simpl; rewrite E; [reflexivity|exact IH].
Qed.

Lemma dict_get_set_other (k k' : key) (v : value) (d : dict) :
  k <> k' -> dict_get k' (dict_set k v d) = dict_get k' d.
Proof.
  intros Hne.
  induction d as [|[k0 v0] d IH]; simpl.
  - now rewrite key_eqb_neq by congruence.
  - destruct (key_eqb k k0) eqn:E; simpl.
    + apply key_eqb_eq in E. subst k0.
      now rewrite key_eqb_neq by congruence.
    + now rewrite IH.
Qed.

(** Decoding well-formed bytes keeps them, so it is injective. *)
Lemma decoded_text_inj (x y : list byte) :
  string_of_list_byte x = string_of_list_byte y -> x = y.
Proof.
  intros H.
  rewrite <- (list_byte_of_string_of_list_byte x),
          <- (list_byte_of_string_of_list_byte y).
  now rewrite H.
Qed.

(** A legacy mapping has no text key. *)
Lemma all_bytes_no_text_key (d : dict) (k : string) :
  all_bytes d = true -> dict_get (KStr k) d = None.
Proof.
  induction d as [|[k' v'] d IH]; simpl; [reflexivity|].
  intros H. apply andb_prop in H as [Hkv Hd].
  destruct k' as [s|raw]; [discriminate|].
  rewrite key_eqb_neq by discriminate. now apply IH.
Qed.

Lemma all_text_text_only (d : dict) :
  all_bytes d = true -> all_text (text_only d) = true.
Proof.
  induction d as [|[k' v'] d IH]; simpl; [reflexivity|].
  intros H. apply andb_prop in H as [Hkv Hd].
  destruct k' as [s|raw]; [discriminate|].
  destruct v'; try discriminate. simpl. now apply IH.
Qed.

(** One turn of the pass on a legacy entry appends its text form when the
    decoded key is new. *)
Lemma legacy_entry_bytes (k v : list byte) (acc : dict) :
  utf8_valid k = true -> utf8_valid v = true ->
  dict_get (KStr (string_of_list_byte k)) acc = None ->
  legacy_entry (KBytes k, VBytes v) acc =
  inr (acc ++ [(KStr (string_of_list_byte k), VStr (string_of_list_byte v))]).
Proof.
  intros Hk Hv Hfresh. unfold legacy_entry, decode.
  rewrite Hk, Hv. simpl. now rewrite dict_set_fresh.
Qed.

Lemma legacy_pass_bytes (items : dict) :
  all_bytes items = true ->
  NoDup (keys items) ->
  forall acc : dict,
    (forall k, In (KBytes k) (keys items) ->
               dict_get (KStr (string_of_list_byte k)) acc = None) ->
    legacy_pass items acc = inr (acc ++ text_only items).
Proof.
  induction items as [|[k' v'] items IH]; intros Hall Hnd acc Hfresh.
  - simpl. now rewrite app_nil_r.
  - simpl in Hall, Hnd, Hfresh.
    apply andb_prop in Hall as [Hkv Hall].
    destruct k' as [s|k]; [discriminate|].
    destruct v' as [| | | | |v| |]; try discriminate.
    apply andb_prop in Hkv as [Hk Hv].
    inversion Hnd as [|? ? Hnew Hnd']; subst.
    cbn [legacy_pass text_only map as_text_entry].
    rewrite legacy_entry_bytes by auto.
    fold (text_only items).
    rewrite IH; auto.
    + now rewrite <- app_assoc.
    + intros k0 Hin. rewrite dict_get_app.
      rewrite Hfresh by now right.
      simpl. rewrite key_eqb_neq; [reflexivity|].
      intros Heq. inversion Heq as [Hs]. apply decoded_text_inj in Hs.
      subst. contradiction.
Qed.

End DictFacts.

(** ** The receive loop, turn by turn *)

Section LoopFacts.

Import Codec LogServer Scenario.

(** The handlers around the body of a turn let no exception out. *)
Lemma guarded_returns (body : M flow) (s : Server) :
  exists f s', guarded body s = (inr f, s').
Proof.
  unfold guarded. destruct (body s) as [[e|f] s'].
  - destruct (leaves_loop e); [eauto|].
    unfold bind, log, emit, ret. eauto.
  - eauto.
Qed.

Lemma drain_check_running (et : option Z) (s : Server) :
  running_event s = true -> drain_check et s = (inr (Continue, et), s).
Proof.
  intros H. unfold drain_check, bind, is_set_running. now rewrite H.
Qed.

(** A turn with the running flag set and untouched is the guarded body. *)
Lemma iteration_running (o : Obs) (et : option Z) (s : Server) :
  running_event s = true -> ctl_clear o = false ->
  iteration o et s =
  match guarded (receive o) s with
  | (inr f, s') => (inr (f, et), s')
  | (inl e, s') => (inl e, s')
  end.
Proof.
  intros Hrun Hclr. unfold iteration, bind at 1 2, controller_clears.
  rewrite Hclr, drain_check_running by assumption.
  unfold bind, ret. now destruct (guarded (receive o) s) as [[e|f] s'].
Qed.

(** The body of a turn in which the poll times out. *)
Lemma receive_idle (o : Obs) (s : Server) :
  idle o ->
  guarded (receive o) s = (inr Continue, with_now (now s + 1000) s).
Proof.
  unfold idle. intros H. unfold guarded, receive, bind, poll. rewrite H.
  reflexivity.
Qed.

(** The body of a turn in which a valid record arrives. *)
Lemma receive_record (o : Obs) (d : dict) (s : Server) :
  valid_record o d ->
  exists s',
    guarded (receive o) s = (inr Continue, s') /\
    sink s' = sink s ++ [delivered d] /\
    journal s' = journal s /\
    running_event s' = running_event s /\
    sentinel_event s' = sentinel_event s /\
    now s <= now s'.
Proof.
  intros [a m w Hp Hr Hu Hn Hh].
  unfold guarded, receive, bind, poll. rewrite Hp. simpl.
  rewrite Hr, Hu. simpl.
  destruct w; try discriminate Hn.
  rewrite Hn. simpl. unfold forward. rewrite Hh. simpl.
  eexists. split; [reflexivity|]. simpl. repeat split; lia.
Qed.

(** The body of a turn in which the sentinel arrives. *)
Lemma receive_sentinel (o : Obs) (s : Server) :
  sentinel_turn o ->
  exists s',
    guarded (receive o) s = (inr Break, s') /\
    sentinel_event s' = true /\
    sink s' = sink s /\
    running_event s' = running_event s /\
    journal s' =
      journal s ++ [Log INFO "%s Received the sentinel to shutdown"; SentinelSet].
Proof.
  intros [a m Hp Hr Hu].
  unfold guarded, receive, bind, poll. rewrite Hp. simpl.
  rewrite Hr, Hu. simpl.
  eexists. split; [reflexivity|]. simpl.
  repeat split. now rewrite <- app_assoc.
Qed.

(** The body of a turn that raises [e]: the first [except] clause breaks
    the loop, the second logs a warning and goes on. *)
Lemma receive_raises (o : Obs) (e : exn) (s : Server) :
  raises o e ->
  exists s',
    guarded (receive o) s = (inr (if leaves_loop e then Break else Continue), s') /\
    sink s' = sink s /\
    sentinel_event s' = sentinel_event s /\
    running_event s' = running_event s /\
    journal s' =
      journal s ++
      (if leaves_loop e then []
       else [Log WARNING "%s An exception occurred in the processing queue thread: %s"]).
Proof.
  intros H.
  assert (Hbody : exists s1, receive o s = (inl e, s1) /\ sink s1 = sink s /\
            sentinel_event s1 = sentinel_event s /\
            running_event s1 = running_event s /\ journal s1 = journal s).
  { destruct H as [Hp|a Hp Hr|a m Hp Hr Hu|a m w Hp Hr Hu Hw Hn|a m w d Hp Hr Hu Hw Hn Hh];
      unfold receive, bind, poll; rewrite Hp; simpl.
    - eexists; split; [reflexivity|]; simpl; auto.
    - rewrite Hr; simpl. eexists; split; [reflexivity|]; simpl; auto.
    - rewrite Hr, Hu; simpl. eexists; split; [reflexivity|]; simpl; auto.
    - rewrite Hr, Hu; simpl. destruct w; try congruence;
        rewrite Hn; simpl; (eexists; split; [reflexivity|]; simpl; auto).
    - rewrite Hr, Hu; simpl. destruct w; try congruence;
        rewrite Hn; simpl; unfold forward; rewrite Hh; simpl;
        (eexists; split; [reflexivity|]; simpl; auto). }
  destruct Hbody as (s1 & Hrun & Hsink & Hsen & Hrunning & Hj).
  unfold guarded. rewrite Hrun.
  destruct (leaves_loop e).
  - exists s1. rewrite app_nil_r. auto.
  - eexists. split; [reflexivity|]. simpl.
    rewrite Hsink, Hsen, Hrunning, Hj. auto.
Qed.

End LoopFacts.

(** ** The receive loop over a whole run *)

Section RunFacts.

Import Codec LogServer Scenario.

(** Running the loop over two runs of turns in a row. *)
Lemma while_true_app (os1 os2 : list Obs) :
  forall (et : option Z) (s : Server),
    while_true (os1 ++ os2) et s =
    match while_true os1 et s with
    | (inr (Continue, et'), s') => while_true os2 et' s'
    | other => other
    end.
Proof.
  induction os1 as [|o os1 IH]; intros et s; [reflexivity|].
  simpl. unfold bind.
  destruct (iteration o et s) as [[e|[[|] et']] s']; try reflexivity.
  apply IH.
Qed.

(** While the running flag stays set, a run of valid records and idle
    polls is forwarded record by record and the loop goes on. *)
Lemma while_true_stream (os : list Obs) (ds : list dict) :
  stream os ds ->
  undisturbed os ->
  forall (et : option Z) (s : Server),
    running_event s = true ->
    exists s',
      while_true os et s = (inr (Continue, et), s') /\
      sink s' = sink s ++ map delivered ds /\
      sentinel_event s' = sentinel_event s /\
      running_event s' = true /\
      journal s' = journal s.
Proof.
  induction 1 as [|o os ds Hidle Hrest IH|o os d ds Hrec Hrest IH];
    intros Hquiet et s Hrun.
  - exists s. simpl. rewrite app_nil_r. auto.
  - inversion Hquiet as [|? ? Hclr Hquiet']; subst.
    simpl. unfold bind at 1.
    rewrite iteration_running, receive_idle by assumption.
    destruct (IH Hquiet' et (with_now (now s + 1000) s) Hrun)
      as (s' & Hloop & Hsink & Hsen & Hrun' & Hj).
    exists s'. rewrite Hloop. auto.
  - inversion Hquiet as [|? ? Hclr Hquiet']; subst.
    destruct (receive_record o d s Hrec)
      as (s1 & Hbody & Hsink1 & Hj1 & Hrun1 & Hsen1 & _).
    simpl. unfold bind at 1.
    rewrite iteration_running, Hbody by assumption.
    rewrite <- Hrun1 in Hrun.
    destruct (IH Hquiet' et s1 Hrun) as (s' & Hloop & Hsink & Hsen & Hrun' & Hj).
    exists s'. rewrite Hloop, Hsink, Hsink1, Hsen, Hj, Hsen1, Hj1.
    rewrite <- app_assoc. auto.
Qed.

(** The start-up of the worker when the bind succeeds. *)
Lemma process_logs_bound (os : list Obs) (s : Server) :
  process_logs None os s =
  let s0 := with_running true
              (with_journal (journal s ++ [PullerBind (log_host s) (log_port s);
                                            RunningSet]) s) in
  match while_true os None s0 with
  | (inr (Continue, _), s') => (inr Looping, s')
  | (inr (Break, _), s') =>
      (inr Returned,
       with_journal (journal s' ++ [PullerClose 1; ContextTerm;
                                    Log DEBUG "%s Process log thread terminated"]) s')
  | (inl e, s') => (inl e, s')
  end.
Proof.
  unfold process_logs, bind, get, emit, set_running, ret, log.
  unfold with_running, with_journal. simpl.
  rewrite <- app_assoc. simpl.
  match goal with
  | |- context [while_true os None ?x] =>
      destruct (while_true os None x) as [[e|[[|] et']] s']
  end; simpl; try reflexivity.
  now rewrite <- !app_assoc.
Qed.

End RunFacts.

(** ** The deadline check *)

Section DrainFacts.

Import Codec LogServer Scenario.

(** The check only reads the flag and the clock, and writes to the log. *)
Lemma drain_check_frame (et : option Z) (s : Server) :
  exists c s',
    drain_check et s = (inr c, s') /\
    sink s' = sink s /\
    sentinel_event s' = sentinel_event s /\
    running_event s' = running_event s /\
    now s' = now s.
Proof.
  unfold drain_check, bind, is_set_running.
  destruct (running_event s) eqn:Hrun.
  - exists (Continue, et), s. simpl. auto.
  - destruct et as [d|]; unfold time_time, log, emit, ret; simpl;
      match goal with
      | |- context [?a <=? ?b] => destruct (a <=? b)
      end;
      eexists; eexists; (split; [reflexivity|]); simpl; auto.
Qed.

Lemma controller_clears_frame (o : Obs) (s : Server) :
  exists s',
    controller_clears o s = (inr tt, s') /\
    sink s' = sink s /\
    sentinel_event s' = sentinel_event s /\
    journal s' = journal s /\
    now s' = now s /\
    running_event s' = (running_event s && negb (ctl_clear o))%bool.
Proof.
  unfold controller_clears. eexists. split; [reflexivity|].
  destruct (ctl_clear o); simpl; repeat split.
  - now rewrite andb_false_r.
  - now rewrite andb_true_r.
Qed.

(** A turn is its deadline check, which touches neither the sink nor the
    sentinel signal, followed by its guarded body unless the check breaks. *)
Lemma iteration_split (o : Obs) (et : option Z) (s : Server) :
  exists (f0 : flow) (et' : option Z) (s0 : Server),
    sink s0 = sink s /\
    sentinel_event s0 = sentinel_event s /\
    iteration o et s =
      match f0 with
      | Break => (inr (Break, et'), s0)
      | Continue =>
          match guarded (receive o) s0 with
          | (inr f, s') => (inr (f, et'), s')
          | (inl e, s') => (inl e, s')
          end
      end.
Proof.
  destruct (controller_clears_frame o s) as (sc & Hc & Hsinkc & Hsenc & _).
  destruct (drain_check_frame et sc) as ([f0 et'] & s0 & Hd & Hsink0 & Hsen0 & _).
  exists f0, et', s0.
  split; [congruence|]. split; [congruence|].
  unfold iteration, bind at 1 2. rewrite Hc, Hd.
  destruct f0; [|reflexivity].
  unfold bind, ret. now destruct (guarded (receive o) s0) as [[e|f] s'].
Qed.

(** Whatever the controller does to the running flag, the sink gains a
    prefix of the records that arrive, in their order and each once; if
    the loop is still going after the turns, it gained all of them. *)
Lemma while_true_stream_prefix (os : list Obs) (ds : list dict) :
  stream os ds ->
  forall (et : option Z) (s : Server),
    exists n : nat,
      sink (snd (while_true os et s)) = sink s ++ map delivered (firstn n ds) /\
      sentinel_event (snd (while_true os et s)) = sentinel_event s /\
      (forall et', fst (while_true os et s) = inr (Continue, et') ->
                   firstn n ds = ds).
Proof.
  induction 1 as [|o os ds Hidle Hrest IH|o os d ds Hrec Hrest IH]; intros et s.
  - exists 0%nat. simpl. rewrite app_nil_r. auto.
  - destruct (iteration_split o et s) as (f0 & et' & s0 & Hsink0 & Hsen0 & Hit).
    simpl while_true. unfold bind. rewrite Hit. destruct f0.
    + rewrite receive_idle by assumption.
      destruct (IH et' (with_now (now s0 + 1000) s0)) as (n & Hsink & Hsen & Hall).
      exists n. rewrite Hsink, Hsen. simpl. rewrite Hsink0, Hsen0. auto.
    + exists 0%nat. simpl. rewrite app_nil_r.
      repeat split; auto. discriminate.
  - destruct (iteration_split o et s) as (f0 & et' & s0 & Hsink0 & Hsen0 & Hit).
    simpl while_true. unfold bind. rewrite Hit. destruct f0.
    + destruct (receive_record o d s0 Hrec)
        as (s1 & Hbody & Hsink1 & _ & _ & Hsen1 & _).
      rewrite Hbody.
      destruct (IH et' s1) as (n & Hsink & Hsen & Hall).
      exists (S n). rewrite Hsink, Hsen, Hsink1, Hsen1, Hsink0, Hsen0.
      simpl. rewrite <- app_assoc. simpl.
      repeat split; auto. intros et'' Hgo. now rewrite (Hall et'' Hgo).
    + exists 0%nat. simpl. rewrite app_nil_r.
      repeat split; auto. discriminate.
Qed.

End DrainFacts.

(** ** The claims on the receive loop *)

Section LoopClaims.

Import Codec LogServer Scenario.

(** C1. Valid records that reach the worker before the sentinel are each
    handed to the sink exactly once and in arrival order, and all of them
    before the sentinel is acted on: while the controller leaves the running
    flag alone, after the turns [os] in which the records [ds] arrive the
    worker is still looping, the sink has gained exactly [ds] in order and
    the sentinel signal is untouched; after the sentinel turn the worker has
    returned, the sink still holds exactly those records and the sentinel
    signal is set.  Whatever the controller does to the flag, the sink gains
    a prefix of [ds], and all of [ds] if the loop is still going after
    [os]. *)
Theorem records_forwarded_once_in_order
    (os : list Obs) (ds : list dict) (o_end : Obs) (s : Server) :
  stream os ds ->
  sentinel_turn o_end ->
  undisturbed (os ++ [o_end]) ->
  (exists s1,
      process_logs None os s = (inr Looping, s1) /\
      sink s1 = sink s ++ map delivered ds /\
      sentinel_event s1 = sentinel_event s) /\
  (exists s2,
      process_logs None (os ++ [o_end]) s = (inr Returned, s2) /\
      sink s2 = sink s ++ map delivered ds /\
      sentinel_event s2 = true) /\
  (forall (fickle : list Obs) (et : option Z),
      stream fickle ds ->
      exists n : nat,
        sink (snd (while_true fickle et s)) =
          sink s ++ map delivered (firstn n ds) /\
        sentinel_event (snd (while_true fickle et s)) = sentinel_event s /\
        (forall et', fst (while_true fickle et s) = inr (Continue, et') ->
                     firstn n ds = ds)).
Proof.
  intros Hstream Hend Hquiet.
  apply Forall_app in Hquiet as [Hquiet Hquiet_end].
  inversion Hquiet_end as [|? ? Hclr _]; subst.
  set (s0 := with_running true
               (with_journal (journal s ++ [PullerBind (log_host s) (log_port s);
                                             RunningSet]) s)).
  destruct (while_true_stream os ds Hstream Hquiet None s0 eq_refl)
    as (s1 & Hloop & Hsink & Hsen & Hrun & Hj).
  split; [|split].
  - exists s1. rewrite process_logs_bound. cbv zeta. fold s0.
    rewrite Hloop. auto.
  - destruct (receive_sentinel o_end s1 Hend)
      as (s2 & Hbody & Hsen2 & Hsink2 & _ & _).
    eexists. rewrite process_logs_bound. cbv zeta. fold s0.
    rewrite while_true_app, Hloop. simpl. unfold bind at 1.
    rewrite iteration_running, Hbody by assumption. simpl.
    split; [reflexivity|]. simpl. rewrite Hsink2, Hsink, Hsen2. auto.
  - intros fickle et Hfickle.
    exact (while_true_stream_prefix fickle ds Hfickle et s).
Qed.

(** C2. A turn that decodes the sentinel sets the sentinel signal, breaks
    out of the loop and hands nothing to the sink, whatever handing the
    payload to a logger would have done: the only calls of the turn after
    its deadline check are the log line and the setting of the signal, and
    no later turn is run. *)
Theorem sentinel_ends_the_loop
    (o : Obs) (rest : list Obs) (et et' : option Z) (s s0 : Server) :
  sentinel_turn o ->
  drain_check et (snd (controller_clears o s)) = (inr (Continue, et'), s0) ->
  exists s',
    iteration o et s = (inr (Break, et'), s') /\
    while_true (o :: rest) et s = (inr (Break, et'), s') /\
    sentinel_event s' = true /\
    sink s' = sink s /\
    journal s' =
      journal s0 ++ [Log INFO "%s Received the sentinel to shutdown"; SentinelSet].
Proof.
  intros Hturn Hcheck.
  destruct (controller_clears_frame o s) as (sc & Hc & Hsinkc & _).
  rewrite Hc in Hcheck. simpl in Hcheck.
  destruct (drain_check_frame et sc) as (c & s0' & Hd & Hsink0 & _).
  rewrite Hd in Hcheck. inversion Hcheck; subst c s0'.
  destruct (receive_sentinel o s0 Hturn) as (s' & Hbody & Hsen & Hsink & _ & Hj).
  assert (Hit : iteration o et s = (inr (Break, et'), s')).
  { unfold iteration, bind at 1 2. rewrite Hc, Hd.
    unfold bind, ret. now rewrite Hbody. }
  exists s'. split; [exact Hit|].
  split; [simpl; unfold bind; now rewrite Hit|].
  repeat split; try assumption. congruence.
Qed.

(** C3, as amended. An exception raised while polling, receiving, decoding,
    normalising or forwarding one message is caught.  Unless it is
    [EOFError], [KeyboardInterrupt] or [SystemExit], it is logged at warning
    severity and the loop goes on: nothing reaches the sink for that
    message, and the valid records that arrive in the later turns are
    delivered, all of them and in order while the controller leaves the
    running flag alone, and in any case as a prefix that is complete if the
    loop is still going.  [EOFError], [KeyboardInterrupt] and [SystemExit]
    are caught by the first [except] clause: the loop is left without a
    warning, without a delivery and without the sentinel signal, and no
    later turn is run. *)
Theorem ordinary_errors_are_survived
    (o : Obs) (os : list Obs) (ds : list dict) (e : exn) (et : option Z)
    (s : Server) :
  raises o e ->
  (leaves_loop e = true <->
   e = EOFError \/ e = KeyboardInterrupt \/ e = SystemExit) /\
  (leaves_loop e = false ->
   (exists s1,
       guarded (receive o) s = (inr Continue, s1) /\
       sink s1 = sink s /\
       sentinel_event s1 = sentinel_event s /\
       journal s1 =
         journal s ++
         [Log WARNING "%s An exception occurred in the processing queue thread: %s"]) /\
   (running_event s = true -> undisturbed (o :: os) -> stream os ds ->
    exists s1 s2,
      iteration o et s = (inr (Continue, et), s1) /\
      sink s1 = sink s /\
      journal s1 =
        journal s ++
        [Log WARNING "%s An exception occurred in the processing queue thread: %s"] /\
      while_true (o :: os) et s = (inr (Continue, et), s2) /\
      sink s2 = sink s ++ map delivered ds) /\
   (stream os ds ->
    exists n : nat,
      sink (snd (while_true (o :: os) et s)) =
        sink s ++ map delivered (firstn n ds) /\
      (forall et', fst (while_true (o :: os) et s) = inr (Continue, et') ->
                   firstn n ds = ds))) /\
  (leaves_loop e = true ->
   (exists s1,
       guarded (receive o) s = (inr Break, s1) /\
       sink s1 = sink s /\
       sentinel_event s1 = sentinel_event s /\
       journal s1 = journal s) /\
   (running_event s = true -> ctl_clear o = false ->
    exists s1,
      iteration o et s = (inr (Break, et), s1) /\
      while_true (o :: os) et s = (inr (Break, et), s1) /\
      sink s1 = sink s /\
      sentinel_event s1 = sentinel_event s /\
      journal s1 = journal s)).
Proof.
  intros Hraise.
  split; [|split].
  - destruct e; simpl; split; intros H; try discriminate H; auto;
      destruct H as [H|[H|H]]; discriminate H.
  - intros Hkind.
    assert (Hbody : forall x : Server, exists s1,
               guarded (receive o) x = (inr Continue, s1) /\
               sink s1 = sink x /\
               sentinel_event s1 = sentinel_event x /\
               running_event s1 = running_event x /\
               journal s1 =
                 journal x ++
                 [Log WARNING "%s An exception occurred in the processing queue thread: %s"]).
    { intros x.
      destruct (receive_raises o e x Hraise) as (s1 & Hrun & Hsink & Hsen & Hflag & Hj).
      rewrite Hkind in Hrun, Hj. eauto 10. }
    split; [|split].
    + destruct (Hbody s) as (s1 & Hrun & Hsink & Hsen & _ & Hj). eauto 10.
    + intros Hrunning Hquiet Hstream.
      inversion Hquiet as [|? ? Hclr Hquiet']; subst.
      destruct (Hbody s) as (s1 & Hrun & Hsink & _ & Hflag & Hj).
      assert (Hit : iteration o et s = (inr (Continue, et), s1)).
      { rewrite iteration_running by assumption. now rewrite Hrun. }
      rewrite <- Hflag in Hrunning.
      destruct (while_true_stream os ds Hstream Hquiet' et s1 Hrunning)
        as (s2 & Hloop & Hsink2 & _).
      exists s1, s2. repeat split; try assumption.
      * simpl. unfold bind at 1. now rewrite Hit.
      * congruence.
    + intros Hstream.
      destruct (iteration_split o et s) as (f0 & et' & s0 & Hsink0 & _ & Hit).
      simpl while_true. unfold bind. rewrite Hit. destruct f0.
      * destruct (Hbody s0) as (s1 & Hrun & Hsink & _).
        rewrite Hrun.
        destruct (while_true_stream_prefix os ds Hstream et' s1)
          as (n & Hgrow & _ & Hall).
        exists n. rewrite Hgrow, Hsink, Hsink0. auto.
      * exists 0%nat. simpl. rewrite app_nil_r.
        split; [exact Hsink0|discriminate].
  - intros Hkind.
    destruct (receive_raises o e s Hraise) as (s1 & Hrun & Hsink & Hsen & _ & Hj).
    rewrite Hkind in Hrun, Hj. rewrite app_nil_r in Hj.
    split; [eauto 10|].
    intros Hrunning Hclr.
    assert (Hit : iteration o et s = (inr (Break, et), s1)).
    { rewrite iteration_running by assumption. now rewrite Hrun. }
    exists s1. repeat split; try assumption.
    simpl. unfold bind. now rewrite Hit.
Qed.

End LoopClaims.

(** ** The claims on the record codec *)

Section CodecClaims.

Import Codec LogServer Scenario.

(** A turn of the legacy pass that spares the text key [k] leaves what is
    stored under [k] as it was. *)
Lemma legacy_entry_spares (k : string) (kv : key * value) (acc acc' : dict) :
  spares k kv ->
  legacy_entry kv acc = inr acc' ->
  dict_get (KStr k) acc' = dict_get (KStr k) acc.
Proof.
  destruct kv as [[k'|raw] v]; unfold spares, legacy_entry; intros Hsp Hrun.
  - destruct v as [| | | | |vb| |]; try (inversion Hrun; subst; reflexivity).
    destruct (decode vb) as [e|s]; [discriminate|].
    inversion Hrun; subst. apply dict_get_set_other. congruence.
  - destruct (decode raw) as [e|s] eqn:Hraw.
    + exfalso. destruct v as [| | | | |vb| |]; try discriminate Hrun.
      destruct (decode vb); discriminate Hrun.
    + assert (Hne : KStr s <> KStr k) by (intros Heq; apply Hsp; congruence).
      destruct v as [| | | | |vb| |];
        try (inversion Hrun; subst; now apply dict_get_set_other).
      destruct (decode vb) as [e|t]; [discriminate|].
      inversion Hrun; subst. now apply dict_get_set_other.
Qed.

Lemma legacy_pass_spares (k : string) (items : dict) :
  Forall (spares k) items ->
  forall acc acc' : dict,
    legacy_pass items acc = inr acc' ->
    dict_get (KStr k) acc' = dict_get (KStr k) acc.
Proof.
  induction 1 as [|kv items Hkv _ IH]; intros acc acc' Hrun; simpl in Hrun.
  - now inversion Hrun.
  - destruct (legacy_entry kv acc) as [e|acc1] eqn:Hentry; [discriminate|].
    rewrite (IH _ _ Hrun). now apply (legacy_entry_spares k kv).
Qed.

(** What a turn hands to the sink once the normalisation is known. *)
Lemma receive_normalized (o : Obs) (a : Z) (m : list byte) (w : value)
    (d : dict) (s : Server) :
  polled o = Event a -> received o = inr m -> unpacked o = inr w ->
  handled o = None -> normalize w = inr d ->
  exists s',
    guarded (receive o) s = (inr Continue, s') /\
    sink s' = sink s ++ [delivered d].
Proof.
  intros Hp Hr Hu Hh Hn.
  destruct (receive_record o d s (valid_record_intro o d a m w Hp Hr Hu Hn Hh))
    as (s' & Hbody & Hsink & _).
  eauto.
Qed.

(** C9, as amended. For a legacy record, all of whose keys and values are
    well-formed byte sequences, the pass adds after the original entries
    one text entry per original entry, with the decoded key and value; the
    mapping handed to the sink therefore holds, under every text key, the
    same value as the all-text record with the same payload (and still
    holds the original byte-keyed entries). *)
Theorem legacy_record_gains_text_fields (d : dict) :
  NoDup (keys d) ->
  all_bytes d = true ->
  normalize (VDict d) = inr (d ++ text_only d) /\
  all_text (text_only d) = true /\
  (forall k : string,
      dict_get (KStr k) (d ++ text_only d) = dict_get (KStr k) (text_only d)) /\
  (forall (o : Obs) (a : Z) (m : list byte) (s : Server),
      polled o = Event a -> received o = inr m ->
      unpacked o = inr (VDict d) -> handled o = None ->
      exists s',
        guarded (receive o) s = (inr Continue, s') /\
        sink s' = sink s ++ [delivered (d ++ text_only d)]).
Proof.
  intros Hnd Hall.
  assert (Hnorm : normalize (VDict d) = inr (d ++ text_only d)).
  { unfold normalize. rewrite all_bytes_no_text_key by assumption.
    apply legacy_pass_bytes; auto.
    intros k _. now apply all_bytes_no_text_key. }
  split; [exact Hnorm|].
  split; [now apply all_text_text_only|].
  split.
  - intros k. rewrite dict_get_app.
    now rewrite all_bytes_no_text_key.
  - intros o a m s Hp Hr Hu Hh.
    now apply (receive_normalized o a m (VDict d)).
Qed.

(** When exactly one entry of the items writes under the text key [k], a
    byte-sequence key that decodes to [k], what the pass leaves under [k] is
    the value of that entry, decoded if it is a byte sequence. *)
Lemma legacy_pass_single_writer (k : string) (raw : list byte) (w : value) :
  decode raw = inr k ->
  forall items : dict,
    NoDup (keys items) ->
    In (KBytes raw, w) items ->
    (forall kv, In kv items -> kv = (KBytes raw, w) \/ spares k kv) ->
    forall acc acc' : dict,
      legacy_pass items acc = inr acc' ->
      dict_get (KStr k) acc' =
      Some (match w with
            | VBytes rw => VStr (string_of_list_byte rw)
            | _ => w
            end).
Proof.
  intros Hdec.
  assert (Hturn : forall acc acc1,
            legacy_entry (KBytes raw, w) acc = inr acc1 ->
            dict_get (KStr k) acc1 =
            Some (match w with
                  | VBytes rw => VStr (string_of_list_byte rw)
                  | _ => w
                  end)).
  { intros acc acc1. unfold legacy_entry. rewrite Hdec.
    destruct w as [| | | | |rw| |];
      try (intros H; inversion H; subst; apply dict_get_set_same).
    unfold decode. destruct (utf8_valid rw); [|discriminate].
    intros H; inversion H; subst. apply dict_get_set_same. }
  induction items as [|kv items IH]; intros Hnd Hin Hothers acc acc' Hrun;
    [contradiction|].
  simpl in Hrun.
  destruct (legacy_entry kv acc) as [e|acc1] eqn:Hentry; [discriminate|].
  inversion Hnd as [|? ? Hfresh Hnd']; subst.
  destruct Hin as [Heq|Hin].
  - subst kv.
    rewrite (legacy_pass_spares k items) with (acc := acc1) (acc' := acc');
      [now apply (Hturn acc)| |exact Hrun].
    apply Forall_forall. intros kv Hkv.
    destruct (Hothers kv (or_intror Hkv)) as [Hsame|Hspare]; [|exact Hspare].
    exfalso. apply Hfresh. subst kv.
    now apply (in_map fst) in Hkv.
  - apply (IH Hnd' Hin) with (acc := acc1); [|exact Hrun].
    intros kv' Hkv'. apply Hothers. now right.
Qed.

(** C10, as amended. The legacy pass runs exactly when the decoded mapping
    has no text key ["message"]: a mapping that has one is handed to the
    sink as decoded, byte sequences included.  When the pass runs, the turn
    of an entry with a text key and a value that is not a byte sequence
    writes nothing, and such an entry keeps its value unless a byte-sequence
    key of the same mapping decodes to its key, in which case the decoded
    value of that entry replaces it. *)
Theorem legacy_pass_only_without_message (d : dict) :
  (forall v, dict_get (KStr "message") d = Some v ->
      normalize (VDict d) = inr d /\
      forall (o : Obs) (a : Z) (m : list byte) (s : Server),
        polled o = Event a -> received o = inr m ->
        unpacked o = inr (VDict d) -> handled o = None ->
        exists s',
          guarded (receive o) s = (inr Continue, s') /\
          sink s' = sink s ++ [delivered d]) /\
  (dict_get (KStr "message") d = None ->
      normalize (VDict d) = legacy_pass d d) /\
  (forall (k : string) (v : value) (acc : dict),
      not_bytes v -> legacy_entry (KStr k, v) acc = inr acc) /\
  (forall (k : string) (v : value) (d' : dict),
      NoDup (keys d) ->
      dict_get (KStr "message") d = None ->
      In (KStr k, v) d ->
      not_bytes v ->
      (forall raw, In (KBytes raw) (keys d) -> decode raw <> inr k) ->
      normalize (VDict d) = inr d' ->
      dict_get (KStr k) d' = Some v) /\
  (forall (k : string) (v w : value) (raw : list byte) (d' : dict),
      NoDup (keys d) ->
      dict_get (KStr "message") d = None ->
      In (KStr k, v) d ->
      not_bytes v ->
      In (KBytes raw, w) d ->
      decode raw = inr k ->
      normalize (VDict d) = inr d' ->
      dict_get (KStr k) d' =
      Some (match w with
            | VBytes rw => VStr (string_of_list_byte rw)
            | _ => w
            end)).
Proof.
  split; [|split; [|split; [|split]]].
  - intros v Hmsg.
    assert (Hnorm : normalize (VDict d) = inr d)
      by (unfold normalize; now rewrite Hmsg).
    split; [exact Hnorm|].
    intros o a m s Hp Hr Hu Hh.
    now apply (receive_normalized o a m (VDict d)).
  - intros Hmsg. unfold normalize. now rewrite Hmsg.
  - intros k v acc Hv. destruct v; simpl in Hv; try contradiction; reflexivity.
  - intros k v d' Hnd Hmsg Hin Hv Hkeys Hnorm.
    unfold normalize in Hnorm. rewrite Hmsg in Hnorm.
    rewrite (legacy_pass_spares k d) with (acc := d) (acc' := d'); auto.
    + now apply dict_get_present.
    + apply Forall_forall. intros [[k'|raw] v'] Hin'; simpl.
      * destruct v'; auto. intros ->.
        pose proof (dict_get_present _ _ _ Hnd Hin) as H1.
        pose proof (dict_get_present _ _ _ Hnd Hin') as H2.
        rewrite H1 in H2. inversion H2; subst. exact Hv.
      * apply Hkeys. change (KBytes raw) with (fst (KBytes raw, v')).
        now apply in_map.
  - intros k v w raw d' Hnd Hmsg Hin Hv Hwriter Hdec Hnorm.
    unfold normalize in Hnorm. rewrite Hmsg in Hnorm.
    apply (legacy_pass_single_writer k raw w Hdec d Hnd Hwriter) with (acc := d);
      [|exact Hnorm].
    intros [[k'|raw'] v'] Hin'.
    + right. simpl. destruct v'; auto. intros ->.
      pose proof (dict_get_present _ _ _ Hnd Hin) as H1.
      pose proof (dict_get_present _ _ _ Hnd Hin') as H2.
      rewrite H1 in H2. inversion H2; subst. exact Hv.
    + destruct (decode raw') as [e|t] eqn:Hdec'.
      * right. simpl. rewrite Hdec'. discriminate.
      * destruct (string_dec t k) as [->|Hne].
        -- left.
           assert (Hraw : raw' = raw).
           { unfold decode in Hdec, Hdec'.
             destruct (utf8_valid raw); [|discriminate].
             destruct (utf8_valid raw'); [|discriminate].
             inversion Hdec as [H1]. inversion Hdec' as [H2].
             apply decoded_text_inj. congruence. }
           subst raw'.
           pose proof (dict_get_present _ _ _ Hnd Hwriter) as H1.
           pose proof (dict_get_present _ _ _ Hnd Hin') as H2.
           rewrite H1 in H2. inversion H2; subst. reflexivity.
        -- right. simpl. rewrite Hdec'. congruence.
Qed.

End CodecClaims.

(** ** The claims on the controller *)

Section ControllerClaims.

Import LogServer Scenario.

(** C4. If the worker does not set the ready signal within the 5 seconds
    of the wait, because its bind failed or because it was too slow,
    [start] raises the start-up error exactly 5 seconds after it began
    waiting and leaves the ready signal cleared; if the worker sets it in
    time, [start] returns normally as soon as it is set, with the signal
    set. *)
Theorem start_outcome (bind_raises : option exn) (ready_after : Z) (s : Server) :
  (bind_raises <> None \/ seconds 5 < ready_after ->
   exists s',
     start bind_raises ready_after s =
       (inl (RuntimeError "Failed to start the log server"), s') /\
     running_event s' = false /\
     now s' = now s + seconds 5) /\
  (bind_raises = None -> ready_after <= seconds 5 ->
   exists s',
     start bind_raises ready_after s = (inr tt, s') /\
     running_event s' = true /\
     now s' = now s + Z.max 0 ready_after /\
     now s' <= now s + seconds 5).
Proof.
  split.
  - intros Hfail.
    unfold start, running_event_wait, bind, log, emit, ret, time_time,
      is_set_running, clear_running, raise.
    simpl.
    destruct (ready_after <=? 5000) eqn:Hin.
    + destruct Hfail as [Hbind|Hslow];
        [|apply Z.leb_le in Hin; unfold seconds in Hslow; lia].
      destruct bind_raises as [e|]; [|congruence].
      destruct e; simpl; eexists; (split; [reflexivity|]); simpl; auto.
    + simpl. eexists; (split; [reflexivity|]); simpl; auto.
  - intros -> Hin.
    unfold start, running_event_wait, bind, log, emit, ret, time_time,
      is_set_running, clear_running, raise.
    simpl.
    assert (Hb : (ready_after <=? 5000) = true)
      by (apply Z.leb_le; unfold seconds in Hin; lia).
    rewrite Hb. simpl.
    eexists; (split; [reflexivity|]); simpl.
    unfold seconds in *. repeat split; lia.
Qed.

(** C7. When the bind of the receiving socket fails with the socket
    library's error, the worker logs it at error severity and returns:
    it raises nothing, leaves the ready signal as it was and hands nothing
    to the sink; and [start], whenever the worker gets to its bind, raises
    the start-up error with the ready signal cleared. *)
Theorem bind_failure_surfaces_as_startup_timeout
    (os : list Obs) (ready_after : Z) (s : Server) :
  (exists s1,
      process_logs (Some ZMQError) os s = (inr Returned, s1) /\
      journal s1 = journal s ++ [Log ERROR "%s Unable to bind to puller at %s"] /\
      running_event s1 = running_event s /\
      sentinel_event s1 = sentinel_event s /\
      sink s1 = sink s) /\
  (exists s2,
      start (Some ZMQError) ready_after s =
        (inl (RuntimeError "Failed to start the log server"), s2) /\
      running_event s2 = false /\
      sink s2 = sink s /\
      journal s2 =
        journal s ++
        [Log INFO "%s starting..."; NewEvents; ThreadStart; RunningWait (seconds 5)] ++
        (if ready_after <=? seconds 5
         then [Log ERROR "%s Unable to bind to puller at %s"] else []) ++
        [RunningClear]).
Proof.
  split.
  - unfold process_logs, bind, get, log, emit, ret. simpl.
    eexists; (split; [reflexivity|]); simpl; auto.
  - unfold start, running_event_wait, process_logs, bind, get, log, emit, ret,
      time_time, is_set_running, clear_running, raise, in_thread, elapse.
    simpl.
    destruct (ready_after <=? 5000); simpl;
      eexists; (split; [reflexivity|]); simpl;
      repeat rewrite <- app_assoc; auto.
Qed.

(** C5, as amended. [stop] returns within 18 seconds: besides the wait of
    at most 5 seconds for the sentinel signal and the joins of at most 7 and
    5 seconds, closing the transient connection keeps [stop] for as long as
    the sentinel is unsent, at most for its linger period of 1000
    milliseconds.  When nothing lingers the bound is 17 seconds.  None of
    the expiries is fatal: unless the send itself raises, [stop] returns
    normally. *)
Theorem stop_returns_within_18 (f : Fate) (s : Server) :
  now s <= now (snd (stop f s)) <= now s + seconds 18 /\
  (linger f <= 0 -> now (snd (stop f s)) <= now s + seconds 17) /\
  (send_raises f = None -> fst (stop f s) = inr tt).
Proof.
  unfold stop, try_finally, close_sender, sentinel_event_wait, join, bind, get,
    log, emit, ret, raise, elapse, clear_running, is_set_sentinel, seconds.
  destruct f as [sr ack lg ex]. simpl.
  destruct sr as [e|]; simpl.
  - split; [lia|]. split; [intros; lia|discriminate].
  - destruct (sentinel_event s); simpl.
    all: try (destruct ack as [t|]; [destruct (t <=? 5000) eqn:Ht|]; simpl).
    all: destruct ex as [x|]; [destruct (x <=? 7000) eqn:Hx|]; simpl.
    all: try (destruct (x - 7000 <=? 5000) eqn:Hx2; simpl).
    all: repeat split; try lia.
Qed.

End ControllerClaims.

Section StopOrder.

Import LogServer Scenario.

(** C6. Unless the send raises, [stop] makes exactly these calls in this
    order: it connects the transient sender, sends the sentinel, waits up to
    5 seconds for the sentinel signal and logs a warning if that expires,
    closes the sender and its context, clears the running flag, joins the
    worker thread for up to 7 seconds and, only if the thread is still
    alive, warns, joins again for up to 5 seconds and warns once more if it
    is alive even then.  It returns normally in every case. *)
Theorem stop_order (f : Fate) (s : Server) :
  send_raises f = None ->
  fst (stop f s) = inr tt /\
  running_event (snd (stop f s)) = false /\
  journal (snd (stop f s)) =
    journal s ++
    [Log INFO "%s stopping...";
     SenderConnect (log_host s) (log_port s);
     SenderSend sentinel_payload;
     Log DEBUG "%s Sent sentinel to trigger log server shutdown";
     SentinelWait (seconds 5)] ++
    (if acked f s then []
     else [Log WARNING "%s Failed to wait for the reception of the stop sentinel message. Stopping anyway."]) ++
    [SenderClose 1000;
     ContextTerm;
     RunningClear;
     Log INFO "%s Joining the logging server process thread";
     ThreadJoin (seconds 7)] ++
    (if gone_after_first_join f then [Log DEBUG "%s Stopped"]
     else [Log WARNING "%s The logging server thread is still running. Waiting a little longer...";
           ThreadJoin (seconds 5);
           if gone_after_second_join f then Log DEBUG "%s Stopped"
           else Log WARNING "%s The logging server thread is still running..."]).
Proof.
  unfold stop, try_finally, close_sender, sentinel_event_wait, join, bind, get,
    log, emit, ret, raise, elapse, clear_running, is_set_sentinel,
    acked, gone_after_first_join, gone_after_second_join, seconds.
  destruct f as [sr ack lg ex]. simpl. intros ->. simpl.
  destruct (sentinel_event s); simpl.
  all: try (destruct ack as [t|]; [destruct (t <=? 5000) eqn:Ht|]; simpl).
  all: destruct ex as [x|]; [destruct (x <=? 7000) eqn:Hx|]; simpl.
  all: try (destruct (x - 7000 <=? 5000) eqn:Hx2;
            destruct (x <=? 12000) eqn:Hx3; simpl;
            try (apply Z.leb_le in Hx2; apply Z.leb_gt in Hx3; lia);
            try (apply Z.leb_gt in Hx2; apply Z.leb_le in Hx3; lia)).
  all: repeat split; repeat rewrite <- app_assoc; reflexivity.
Qed.

End StopOrder.

(** ** The drain phase *)

Section DrainClaims.

Import Codec LogServer Scenario.

Lemma lasts_ret {A : Type} (a : A) : lasts (ret a) 0.
Proof. intros s. simpl. split; [lia|reflexivity]. Qed.

Lemma lasts_raise {A : Type} (e : exn) : lasts (@raise A e) 0.
Proof. intros s. simpl. split; [lia|reflexivity]. Qed.

Lemma lasts_lift {A : Type} (r : exn + A) : lasts (lift r) 0.
Proof. destruct r; [apply lasts_raise|apply lasts_ret]. Qed.

Lemma lasts_emit (c : call) : lasts (emit c) 0.
Proof. intros s. simpl. split; [lia|reflexivity]. Qed.

Lemma lasts_elapse (d : Z) : lasts (elapse d) (Z.max 0 d).
Proof. intros s. simpl. split; [lia|reflexivity]. Qed.

Lemma lasts_longer {A : Type} (m : M A) (t t' : Z) :
  lasts m t -> t <= t' -> lasts m t'.
Proof. intros H Hle s. destruct (H s). split; [lia|assumption]. Qed.

Lemma lasts_bind {A B : Type} (m : M A) (f : A -> M B) (t1 t2 : Z) :
  lasts m t1 -> 0 <= t2 -> (forall a, lasts (f a) t2) ->
  lasts (bind m f) (t1 + t2).
Proof.
  intros Hm Ht Hf s. unfold bind.
  specialize (Hm s). destruct (m s) as [[e|a] s1]; simpl in *.
  - destruct Hm. split; [lia|assumption].
  - destruct (Hf a s1) as [Hclock Hflag]. destruct Hm as [Hclock1 Hflag1].
    split; [lia|congruence].
Qed.

Lemma lasts_poll (timeout : Z) (o : poll_outcome) :
  0 <= timeout -> lasts (poll timeout o) timeout.
Proof.
  intros Ht. destruct o as [|a|e]; simpl.
  - apply (lasts_longer _ (Z.max 0 timeout + 0)); [|lia].
    apply lasts_bind; [apply lasts_elapse|lia|intros; apply lasts_ret].
  - apply (lasts_longer _ (Z.max 0 (Z.min a timeout) + 0)); [|lia].
    apply lasts_bind; [apply lasts_elapse|lia|intros; apply lasts_ret].
  - apply (lasts_longer _ 0); [apply lasts_raise|lia].
Qed.

Lemma lasts_forward (d : dict) (h : option exn) : lasts (forward d h) 0.
Proof.
  destruct h; [apply lasts_raise|].
  intros s. simpl. split; [lia|reflexivity].
Qed.

Lemma lasts_set_sentinel : lasts set_sentinel 0.
Proof. intros s. simpl. split; [lia|reflexivity]. Qed.

(** The body of a turn: the poll, then the time spent on the message. *)
Lemma lasts_receive (o : Obs) :
  lasts (receive o) (1000 + Z.max 0 (busy o)).
Proof.
  unfold receive.
  apply lasts_bind; [apply lasts_poll; lia|lia|].
  intros [|]; simpl.
  - apply (lasts_longer _ (Z.max 0 (busy o) + 0)); [|lia].
    apply lasts_bind; [apply lasts_elapse|lia|]. intros _.
    apply (lasts_longer _ (0 + 0)); [|lia].
    apply lasts_bind; [apply lasts_lift|lia|]. intros _.
    apply (lasts_longer _ (0 + 0)); [|lia].
    apply lasts_bind; [apply lasts_lift|lia|]. intros w.
    assert (Hrecord : lasts (bind (lift (normalize w))
                               (fun d => bind (forward d (handled o))
                                              (fun _ => ret Continue))) 0).
    { apply (lasts_longer _ (0 + 0)); [|lia].
      apply lasts_bind; [apply lasts_lift|lia|]. intros d.
      apply (lasts_longer _ (0 + 0)); [|lia].
      apply lasts_bind; [apply lasts_forward|lia|]. intros _. apply lasts_ret. }
    assert (Hsentinel : lasts (bind (log INFO "%s Received the sentinel to shutdown")
                                 (fun _ => bind set_sentinel
                                                (fun _ => ret Break))) 0).
    { apply (lasts_longer _ (0 + 0)); [|lia].
      apply lasts_bind; [apply lasts_emit|lia|]. intros _.
      apply (lasts_longer _ (0 + 0)); [|lia].
      apply lasts_bind; [apply lasts_set_sentinel|lia|]. intros _.
      apply lasts_ret. }
    destruct w; [exact Hsentinel|exact Hrecord..].
  - apply (lasts_longer _ 0); [apply lasts_ret|lia].
Qed.

Lemma lasts_guarded (body : M flow) (t : Z) :
  lasts body t -> lasts (guarded body) t.
Proof.
  intros H s. unfold guarded. specialize (H s).
  destruct (body s) as [[e|f] s1]; simpl in *; [|exact H].
  destruct (leaves_loop e); simpl; exact H.
Qed.

(** The body of a turn lasts at most the poll timeout plus the time spent
    on the message, and leaves the running flag alone. *)
Lemma receive_duration (o : Obs) (s : Server) :
  exists f s',
    guarded (receive o) s = (inr f, s') /\
    now s <= now s' <= now s + 1000 + Z.max 0 (busy o) /\
    running_event s' = running_event s.
Proof.
  destruct (guarded_returns (receive o) s) as (f & s' & Hrun).
  exists f, s'. split; [exact Hrun|].
  pose proof (lasts_guarded _ _ (lasts_receive o) s) as H.
  rewrite Hrun in H. cbn [snd] in H. destruct H. split; [lia|assumption].
Qed.

(** A turn that finds the running flag cleared: with the deadline [d] (set
    now, 5 seconds ahead, if it was not set before) it either breaks at
    once, when the clock has reached [d], or runs its body. *)
Lemma iteration_draining (o : Obs) (et : option Z) (s : Server) :
  cleared s o ->
  let d := match et with
           | Some d => d
           | None => now s + seconds exit_timeout_seconds
           end in
  (d <= now s ->
   exists s',
     iteration o et s = (inr (Break, Some d), s') /\
     now s' = now s /\ sink s' = sink s /\
     sentinel_event s' = sentinel_event s /\ running_event s' = false) /\
  (now s < d ->
   exists s0,
     (now s0 = now s /\ sink s0 = sink s /\
      sentinel_event s0 = sentinel_event s /\ running_event s0 = false) /\
     iteration o et s =
       match guarded (receive o) s0 with
       | (inr f, s') => (inr (f, Some d), s')
       | (inl e, s') => (inl e, s')
       end).
Proof.
  intros Hclr d.
  destruct (controller_clears_frame o s)
    as (sc & Hc & Hsinkc & Hsenc & _ & Hnowc & Hrunc).
  assert (Hoff : running_event sc = false).
  { rewrite Hrunc. destruct Hclr as [->| ->]; [reflexivity|].
    now rewrite andb_false_r. }
  assert (Hcheck :
    drain_check et sc =
    (if d <=? now s
     then (inr (Break, Some d),
           with_journal
             (journal (match et with
                       | Some _ => sc
                       | None =>
                           with_journal
                             (journal sc ++
                              [Log DEBUG "%s Waiting %d seconds to process any remaning log messages before exiting..."])
                             sc
                       end) ++
              [Log DEBUG "%s Unable to process remaining log messages in time. Exiting anyway."])
             (match et with
              | Some _ => sc
              | None =>
                  with_journal
                    (journal sc ++
                     [Log DEBUG "%s Waiting %d seconds to process any remaning log messages before exiting..."])
                    sc
              end))
     else (inr (Continue, Some d),
           match et with
           | Some _ => sc
           | None =>
               with_journal
                 (journal sc ++
                  [Log DEBUG "%s Waiting %d seconds to process any remaning log messages before exiting..."])
                 sc
           end))).
  { unfold drain_check, bind, is_set_running. rewrite Hoff.
    subst d. destruct et as [d0|]; unfold time_time, log, emit, ret; simpl;
      rewrite Hnowc;
      match goal with
      | |- context [?a <=? ?b] => destruct (a <=? b)
      end; reflexivity. }
  split.
  - intros Hdue. apply Z.leb_le in Hdue. rewrite Hdue in Hcheck.
    eexists. split.
    + unfold iteration, bind at 1 2. rewrite Hc, Hcheck. reflexivity.
    + destruct et; simpl; auto.
  - intros Hearly. apply Z.leb_gt in Hearly. rewrite Hearly in Hcheck.
    match type of Hcheck with
    | _ = (_, ?x) => exists x
    end.
    split; [destruct et; simpl; auto|].
    unfold iteration, bind at 1 2. rewrite Hc, Hcheck.
    unfold bind, ret.
    match goal with
    | |- context [guarded (receive o) ?x] =>
        destruct (guarded (receive o) x) as [[e|f] s']
    end; reflexivity.
Qed.

(** With no traffic, a draining worker leaves the loop at the first check
    at or after its deadline, less than one poll interval after it. *)
Lemma while_true_idle_drain (os : list Obs) :
  Forall idle os ->
  forall (s : Server) (d : Z),
    running_event s = false ->
    now s < d + 1000 ->
    d <= now s + 1000 * (Z.of_nat (List.length os) - 1) ->
    exists s',
      while_true os (Some d) s = (inr (Break, Some d), s') /\
      d <= now s' < d + 1000 /\
      sink s' = sink s /\
      sentinel_event s' = sentinel_event s.
Proof.
  induction 1 as [|o os Hidle _ IH]; intros s d Hoff Hnear Hlong.
  - simpl in Hlong. lia.
  - destruct (iteration_draining o (Some d) s (or_introl Hoff)) as [Hdue Hearly].
    cbv zeta in Hdue, Hearly.
    destruct (Z_le_gt_dec d (now s)) as [Hle|Hgt].
    + destruct (Hdue Hle) as (s' & Hit & Hnow & Hsink & Hsen & _).
      exists s'. simpl. unfold bind. rewrite Hit.
      repeat split; auto; lia.
    + destruct (Hearly ltac:(lia)) as (s0 & (Hnow0 & Hsink0 & Hsen0 & Hoff0) & Hit).
      rewrite receive_idle in Hit by assumption.
      destruct (IH (with_now (now s0 + 1000) s0) d) as (s' & Hloop & Hnow & Hsink & Hsen).
      * exact Hoff0.
      * cbn [now with_now]. lia.
      * cbn [now with_now].
        change (List.length (o :: os)) with (S (List.length os)) in Hlong. lia.
      * exists s'. simpl. unfold bind. rewrite Hit, Hloop.
        simpl in Hsink, Hsen. repeat split; try lia; congruence.
Qed.

(** Whatever arrives, a draining worker is never inside the loop later than
    its deadline plus one poll interval plus the longest time [w] it spends
    on a message. *)
Lemma drain_clock_bound (os : list Obs) (w : Z) :
  0 <= w ->
  Forall (fun o => busy o <= w) os ->
  forall (s : Server) (d : Z),
    running_event s = false ->
    now s < d + 1000 + w ->
    now (snd (while_true os (Some d) s)) < d + 1000 + w.
Proof.
  intros Hw. induction 1 as [|o os Hbusy _ IH]; intros s d Hoff Hnear.
  - exact Hnear.
  - destruct (iteration_draining o (Some d) s (or_introl Hoff)) as [Hdue Hearly].
    cbv zeta in Hdue, Hearly.
    destruct (Z_le_gt_dec d (now s)) as [Hle|Hgt].
    + destruct (Hdue Hle) as (s' & Hit & Hnow & _).
      simpl. unfold bind. rewrite Hit. simpl. lia.
    + destruct (Hearly ltac:(lia)) as (s0 & (Hnow0 & _ & _ & Hoff0) & Hit).
      destruct (receive_duration o s0) as (f & s1 & Hbody & Hclock & Hflag).
      rewrite Hbody in Hit.
      simpl. unfold bind. rewrite Hit.
      destruct f.
      * apply IH; [congruence|lia].
      * simpl. lia.
Qed.

(** C8. When a turn finds the running flag cleared and no deadline set, it
    sets the deadline 5 seconds after that moment; a turn that finds the
    clock at or past the deadline leaves the loop without polling.  With no
    traffic every turn lasts one poll timeout, so the worker leaves the loop
    at the deadline or less than one poll interval after it, and
    [process_logs] returns.  With traffic, it is never inside the loop later
    than the deadline plus one poll interval plus the longest time it spends
    on one message. *)
Theorem drain_phase_is_bounded (o : Obs) (os : list Obs) (s : Server) :
  cleared s o ->
  (exists f s',
      iteration o None s = (inr (f, Some (now s + seconds 5)), s') /\
      running_event s' = false) /\
  (forall d, d <= now s ->
      exists s',
        iteration o (Some d) s = (inr (Break, Some d), s') /\
        now s' = now s /\ sink s' = sink s /\
        sentinel_event s' = sentinel_event s) /\
  (Forall idle (o :: os) -> (5 <= List.length os)%nat ->
      exists s',
        while_true (o :: os) None s = (inr (Break, Some (now s + seconds 5)), s') /\
        now s + seconds 5 <= now s' < now s + seconds 5 + 1000 /\
        sink s' = sink s /\
        sentinel_event s' = sentinel_event s) /\
  (forall w, 0 <= w -> Forall (fun o' => busy o' <= w) (o :: os) ->
      now (snd (while_true (o :: os) None s)) < now s + seconds 5 + 1000 + w) /\
  (ctl_clear o = true -> Forall idle (o :: os) -> (5 <= List.length os)%nat ->
      exists s',
        process_logs None (o :: os) s = (inr Returned, s') /\
        now s' < now s + seconds 5 + 1000 /\
        sink s' = sink s).
Proof.
  intros Hclr.
  assert (Hnoflow : forall (x : Server), cleared x o ->
            Forall idle (o :: os) -> (5 <= List.length os)%nat ->
            exists s',
              while_true (o :: os) None x = (inr (Break, Some (now x + seconds 5)), s') /\
              now x + seconds 5 <= now s' < now x + seconds 5 + 1000 /\
              sink s' = sink x /\
              sentinel_event s' = sentinel_event x).
  { intros x Hx Hidle Hlen.
    inversion Hidle as [|? ? Ho Hos]; subst.
    destruct (iteration_draining o None x Hx) as [_ Hearly].
    cbv zeta in Hearly. unfold exit_timeout_seconds, seconds in *.
    destruct (Hearly ltac:(lia)) as (s0 & (Hnow0 & Hsink0 & Hsen0 & Hoff0) & Hit).
    rewrite receive_idle in Hit by assumption.
    destruct (while_true_idle_drain os Hos (with_now (now s0 + 1000) s0)
                (now x + 5 * 1000))
      as (s' & Hloop & Hnow & Hsink & Hsen).
    - exact Hoff0.
    - cbn [now with_now]. lia.
    - cbn [now with_now]. lia.
    - exists s'. simpl while_true. unfold bind. rewrite Hit, Hloop.
      cbn [now with_now sink sentinel_event] in *.
      repeat split; try lia; congruence. }
  destruct (iteration_draining o None s Hclr) as [_ Hearly].
  cbv zeta in Hearly. unfold exit_timeout_seconds in Hearly.
  assert (Hahead : now s < now s + seconds 5) by (unfold seconds; lia).
  destruct (Hearly Hahead) as (s0 & (Hnow0 & Hsink0 & Hsen0 & Hoff0) & Hit).
  destruct (receive_duration o s0) as (f & s1 & Hbody & Hclock & Hflag).
  rewrite Hbody in Hit.
  split; [|split; [|split; [|split]]].
  - exists f, s1. split; [exact Hit|congruence].
  - intros d Hdue.
    destruct (iteration_draining o (Some d) s Hclr) as [Hnow _].
    destruct (Hnow Hdue) as (s' & Hbreak & ? & ? & ? & _). eauto.
  - now apply Hnoflow.
  - intros w Hw Hbusy. inversion Hbusy as [|? ? Ho Hos]; subst.
    simpl while_true. unfold bind. rewrite Hit.
    destruct f.
    + apply drain_clock_bound; auto; [congruence|]. unfold seconds. lia.
    + unfold ret. cbn [snd]. unfold seconds. lia.
  - intros Hctl Hidle Hlen.
    rewrite process_logs_bound. cbv zeta.
    match goal with
    | |- context [while_true (o :: os) None ?x] =>
        destruct (Hnoflow x (or_intror Hctl) Hidle Hlen)
          as (s' & Hloop & Hnow & Hsink & _);
        rewrite Hloop
    end.
    eexists. split; [reflexivity|].
    cbn [now with_now with_journal with_running sink] in *.
    split; [lia|exact Hsink].
Qed.

End DrainClaims.

(** ** The claims at concrete runs *)

Section Instances.

Import Codec LogServer Scenario.

(** C1 at a run of two records separated by an idle poll, then the
    sentinel. *)
Lemma records_forwarded_once_in_order_witness :
  exists s2,
    process_logs None
      ([turn_record (VDict [(KStr "message", VStr "R1")]) None;
        turn_idle false;
        turn_record (VDict [(KStr "message", VStr "R2")]) None]
       ++ [turn_record VNone None]) fresh = (inr Returned, s2) /\
    sink s2 =
      sink fresh ++
      map delivered [[(KStr "message", VStr "R1")]; [(KStr "message", VStr "R2")]] /\
    sentinel_event s2 = true.
Proof.
  refine (proj1 (proj2 (records_forwarded_once_in_order _ _ _ fresh _ _ _))).
  - apply stream_record.
    + apply (valid_record_intro _ _ 0 [] (VDict [(KStr "message", VStr "R1")]));
        reflexivity.
    + apply stream_idle; [reflexivity|].
      apply stream_record; [|apply stream_nil].
      apply (valid_record_intro _ _ 0 [] (VDict [(KStr "message", VStr "R2")]));
        reflexivity.
  - apply (sentinel_turn_intro _ 0 []); reflexivity.
  - repeat constructor.
Defined.

(** C2 at a sentinel turn followed by a record that is never looked at. *)
Lemma sentinel_ends_the_loop_witness :
  exists s',
    iteration (turn_record VNone (Some TypeError)) None (with_running true fresh) =
      (inr (Break, None), s') /\
    while_true
      (turn_record VNone (Some TypeError)
       :: [turn_record (VDict [(KStr "message", VStr "late")]) None])
      None (with_running true fresh) = (inr (Break, None), s') /\
    sentinel_event s' = true /\
    sink s' = sink (with_running true fresh) /\
    journal s' =
      journal (with_running true fresh) ++
      [Log INFO "%s Received the sentinel to shutdown"; SentinelSet].
Proof.
  apply (sentinel_ends_the_loop _ _ None None (with_running true fresh)
           (with_running true fresh)).
  - apply (sentinel_turn_intro _ 0 []); reflexivity.
  - reflexivity.
Defined.

(** C3, the claim as stated fails: handing a record to its logger raises
    [EOFError]; the worker leaves the loop and returns without logging a
    warning, and the valid record of the next turn never reaches the sink. *)
Lemma eof_error_ends_the_worker :
  raises (turn_record (VDict [(KStr "message", VStr "x")]) (Some EOFError)) EOFError /\
  valid_record (turn_record (VDict [(KStr "message", VStr "y")]) None)
    [(KStr "message", VStr "y")] /\
  fst (process_logs None
         [turn_record (VDict [(KStr "message", VStr "x")]) (Some EOFError);
          turn_record (VDict [(KStr "message", VStr "y")]) None] fresh)
  = inr Returned /\
  sink (snd (process_logs None
         [turn_record (VDict [(KStr "message", VStr "x")]) (Some EOFError);
          turn_record (VDict [(KStr "message", VStr "y")]) None] fresh))
  = [] /\
  journal (snd (process_logs None
         [turn_record (VDict [(KStr "message", VStr "x")]) (Some EOFError);
          turn_record (VDict [(KStr "message", VStr "y")]) None] fresh))
  = [PullerBind "127.0.0.1" 4505; RunningSet; PullerClose 1; ContextTerm;
     Log DEBUG "%s Process log thread terminated"].
Proof.
  split.
  - apply (raises_handle _ _ 0 [] (VDict [(KStr "message", VStr "x")])
             [(KStr "message", VStr "x")]); try reflexivity; discriminate.
  - split.
    + apply (valid_record_intro _ _ 0 [] (VDict [(KStr "message", VStr "y")]));
        reflexivity.
    + repeat split; reflexivity.
Qed.

(** C3 as amended, at an undecodable message followed by an idle poll and
    a valid record. *)
Lemma ordinary_errors_are_survived_witness :
  exists s1 s2,
    iteration turn_garbage None (with_running true fresh) =
      (inr (Continue, None), s1) /\
    sink s1 = sink (with_running true fresh) /\
    journal s1 =
      journal (with_running true fresh) ++
      [Log WARNING "%s An exception occurred in the processing queue thread: %s"] /\
    while_true
      (turn_garbage
       :: [turn_idle false;
           turn_record (VDict [(KStr "message", VStr "ok")]) None])
      None (with_running true fresh) = (inr (Continue, None), s2) /\
    sink s2 =
      sink (with_running true fresh) ++
      map delivered [[(KStr "message", VStr "ok")]].
Proof.
  refine (proj1 (proj2 (proj1 (proj2
            (ordinary_errors_are_survived turn_garbage
               [turn_idle false;
                turn_record (VDict [(KStr "message", VStr "ok")]) None]
               [[(KStr "message", VStr "ok")]]
               (OtherException "FormatError") None (with_running true fresh) _))
            _)) _ _ _).
  - apply (raises_loads _ _ 0 [xc1]); reflexivity.
  - reflexivity.
  - reflexivity.
  - repeat constructor.
  - apply stream_idle; [reflexivity|].
    apply stream_record; [|apply stream_nil].
    apply (valid_record_intro _ _ 0 [] (VDict [(KStr "message", VStr "ok")]));
      reflexivity.
Defined.

(** C4 at a worker that is ready after 20 milliseconds. *)
Lemma start_outcome_witness :
  exists s',
    start None 20 fresh = (inr tt, s') /\
    running_event s' = true /\
    now s' = now fresh + Z.max 0 20 /\
    now s' <= now fresh + seconds 5.
Proof.
  apply (proj2 (start_outcome None 20 fresh)).
  - reflexivity.
  - unfold seconds. lia.
Defined.

(** C5, the claim as stated fails: when the sentinel is never acknowledged
    nor sent on, and the worker thread never ends, [stop] takes 18
    seconds. *)
Lemma stop_can_take_18_seconds :
  fst (stop worst (with_running true fresh)) = inr tt /\
  now (snd (stop worst (with_running true fresh)))
  - now (with_running true fresh) = seconds 18 /\
  ~ (now (snd (stop worst (with_running true fresh)))
     <= now (with_running true fresh) + seconds 17).
Proof.
  split; [reflexivity|]. split; [reflexivity|].
  vm_compute. intros H. apply H. reflexivity.
Qed.

(** C5 as amended, at an orderly shutdown. *)
Lemma stop_returns_within_18_witness :
  now (snd (stop orderly (with_running true fresh)))
    <= now (with_running true fresh) + seconds 17 /\
  fst (stop orderly (with_running true fresh)) = inr tt.
Proof.
  split.
  - apply (proj1 (proj2 (stop_returns_within_18 orderly (with_running true fresh)))).
    simpl. lia.
  - apply (proj2 (proj2 (stop_returns_within_18 orderly (with_running true fresh)))).
    reflexivity.
Defined.

(** C6 at the run in which nothing [stop] waits for ever happens. *)
Lemma stop_order_witness :
  fst (stop worst (with_running true fresh)) = inr tt /\
  running_event (snd (stop worst (with_running true fresh))) = false /\
  journal (snd (stop worst (with_running true fresh))) =
    journal (with_running true fresh) ++
    [Log INFO "%s stopping...";
     SenderConnect (log_host (with_running true fresh))
                   (log_port (with_running true fresh));
     SenderSend sentinel_payload;
     Log DEBUG "%s Sent sentinel to trigger log server shutdown";
     SentinelWait (seconds 5)] ++
    (if acked worst (with_running true fresh) then []
     else [Log WARNING "%s Failed to wait for the reception of the stop sentinel message. Stopping anyway."]) ++
    [SenderClose 1000;
     ContextTerm;
     RunningClear;
     Log INFO "%s Joining the logging server process thread";
     ThreadJoin (seconds 7)] ++
    (if gone_after_first_join worst then [Log DEBUG "%s Stopped"]
     else [Log WARNING "%s The logging server thread is still running. Waiting a little longer...";
           ThreadJoin (seconds 5);
           if gone_after_second_join worst then Log DEBUG "%s Stopped"
           else Log WARNING "%s The logging server thread is still running..."]).
Proof.
  apply (stop_order worst (with_running true fresh)). reflexivity.
Defined.

(** C8 at a worker whose running flag is cleared and that then sees six
    polls time out. *)
Lemma drain_phase_is_bounded_witness :
  exists s',
    process_logs None (turn_idle true :: repeat (turn_idle false) 5) fresh =
      (inr Returned, s') /\
    now s' < now fresh + seconds 5 + 1000 /\
    sink s' = sink fresh.
Proof.
  refine (proj2 (proj2 (proj2 (proj2
            (drain_phase_is_bounded (turn_idle true)
               (repeat (turn_idle false) 5) fresh _)))) _ _ _).
  - left. reflexivity.
  - reflexivity.
  - repeat constructor.
  - simpl. lia.
Defined.

(** C9, the claim as stated fails: after the pass the mapping still holds
    the byte-keyed entry, so it is neither all-text nor the all-text record
    with the same payload. *)
Lemma legacy_record_keeps_byte_keys :
  all_bytes [(KBytes (b "msg"), VBytes (b "hi"))] = true /\
  normalize (VDict [(KBytes (b "msg"), VBytes (b "hi"))]) =
    inr [(KBytes (b "msg"), VBytes (b "hi")); (KStr "msg", VStr "hi")] /\
  all_text [(KBytes (b "msg"), VBytes (b "hi")); (KStr "msg", VStr "hi")] = false /\
  normalize (VDict [(KBytes (b "msg"), VBytes (b "hi"))]) <>
    inr (text_only [(KBytes (b "msg"), VBytes (b "hi"))]).
Proof.
  repeat split; try reflexivity.
  vm_compute. discriminate.
Qed.

(** C9 as amended, at the same legacy record. *)
Lemma legacy_record_gains_text_fields_witness :
  normalize (VDict [(KBytes (b "msg"), VBytes (b "hi"))]) =
    inr ([(KBytes (b "msg"), VBytes (b "hi"))]
         ++ text_only [(KBytes (b "msg"), VBytes (b "hi"))]) /\
  all_text (text_only [(KBytes (b "msg"), VBytes (b "hi"))]) = true.
Proof.
  destruct (legacy_record_gains_text_fields [(KBytes (b "msg"), VBytes (b "hi"))])
    as (Hnorm & Htext & _).
  - constructor; [intros []|constructor].
  - reflexivity.
  - split; assumption.
Defined.

(** C10, the claim as stated fails: the pass runs, the entry ["k": "v"] has
    a text key and a text value, and the pass replaces its value, because
    the byte-sequence key [b"k"] of the same mapping decodes to ["k"]. *)
Lemma colliding_byte_key_overwrites_text_entry :
  dict_get (KStr "message") [(KStr "k", VStr "v"); (KBytes (b "k"), VBytes (b "w"))] = None /\
  In (KStr "k", VStr "v") [(KStr "k", VStr "v"); (KBytes (b "k"), VBytes (b "w"))] /\
  normalize (VDict [(KStr "k", VStr "v"); (KBytes (b "k"), VBytes (b "w"))]) =
    inr [(KStr "k", VStr "w"); (KBytes (b "k"), VBytes (b "w"))] /\
  dict_get (KStr "k") [(KStr "k", VStr "w"); (KBytes (b "k"), VBytes (b "w"))] =
    Some (VStr "w") /\
  ~ In (KStr "k", VStr "v") [(KStr "k", VStr "w"); (KBytes (b "k"), VBytes (b "w"))].
Proof.
  split; [reflexivity|]. split; [now left|]. split; [reflexivity|].
  split; [reflexivity|].
  intros [H|[H|[]]]; discriminate H.
Qed.

(** C10 as amended, at a mapping whose byte-sequence key decodes to another
    text key, and at one whose byte-sequence key decodes to the key of its
    text entry. *)
Lemma legacy_pass_only_without_message_witness :
  dict_get (KStr "k")
    [(KStr "k", VStr "v"); (KBytes (b "x"), VBytes (b "w")); (KStr "x", VStr "w")] =
  Some (VStr "v") /\
  dict_get (KStr "k")
    [(KStr "k", VStr "w"); (KBytes (b "k"), VBytes (b "w"))] =
  Some (VStr (string_of_list_byte (b "w"))).
Proof.
  split.
  - apply (proj1 (proj2 (proj2 (proj2 (legacy_pass_only_without_message
             [(KStr "k", VStr "v"); (KBytes (b "x"), VBytes (b "w"))]))))
             "k" (VStr "v")).
    + constructor; [intros [H|[]]; discriminate H|].
      constructor; [intros []|constructor].
    + reflexivity.
    + left. reflexivity.
    + exact I.
    + intros raw [H|[H|[]]]; [discriminate H|].
      inversion H; subst. vm_compute. discriminate.
    + reflexivity.
  - apply (proj2 (proj2 (proj2 (proj2 (legacy_pass_only_without_message
             [(KStr "k", VStr "v"); (KBytes (b "k"), VBytes (b "w"))]))))
             "k" (VStr "v") (VBytes (b "w")) (b "k")).
    + constructor; [intros [H|[]]; discriminate H|].
      constructor; [intros []|constructor].
    + reflexivity.
    + left. reflexivity.
    + exact I.
    + right. left. reflexivity.
    + reflexivity.
    + reflexivity.
Defined.

End Instances.

(** * Further properties *)

(** ** The legacy pass *)

Section CodecMore.

Import Codec LogServer Scenario Cases.

Lemma dict_set_inside (k : key) (v v0 : value) (pre rest : dict) :
  ~ In k (keys pre) ->
  dict_set k v (pre ++ (k, v0) :: rest) = pre ++ (k, v) :: rest.
Proof.
  induction pre as [|[k' v'] pre IH]; simpl; intros Hout.
  - now rewrite key_eqb_refl.
  - rewrite key_eqb_neq by (intros ->; apply Hout; now left).
    rewrite IH; [reflexivity|]. intros Hin. apply Hout. now right.
Qed.

Lemma legacy_pass_text_keyed (items : dict) :
  text_keyed items = true ->
  forall pre : dict,
    NoDup (keys (pre ++ items)) ->
    legacy_pass items (pre ++ items) = inr (pre ++ map decode_value items).
Proof.
  induction items as [|[k v] items IH]; intros Hall pre Hnd; [reflexivity|].
  simpl in Hall. apply andb_prop in Hall as [Hkv Hall].
  destruct k as [k|raw]; [|discriminate].
  assert (Hout : ~ In (KStr k) (keys pre)).
  { unfold keys in *. rewrite map_app in Hnd. simpl in Hnd.
    apply NoDup_remove_2 in Hnd. intros Hin. apply Hnd.
    apply in_or_app. now left. }
  assert (Hnext : forall v', NoDup (keys ((pre ++ [(KStr k, v')]) ++ items))).
  { intros v'. unfold keys in *. rewrite <- app_assoc.
    rewrite map_app in *. exact Hnd. }
  assert (Hstep : legacy_entry (KStr k, v) (pre ++ (KStr k, v) :: items) =
                  inr (pre ++ decode_value (KStr k, v) :: items)).
  { destruct v as [| | | | |raw| |]; try reflexivity.
    simpl in Hkv. unfold legacy_entry, decode. rewrite Hkv.
    now rewrite dict_set_inside. }
  cbn [legacy_pass map]. rewrite Hstep.
  replace (pre ++ decode_value (KStr k, v) :: items)
    with ((pre ++ [decode_value (KStr k, v)]) ++ items)
    by (now rewrite <- app_assoc).
  replace (pre ++ decode_value (KStr k, v) :: map decode_value items)
    with ((pre ++ [decode_value (KStr k, v)]) ++ map decode_value items)
    by (now rewrite <- app_assoc).
  apply IH; [exact Hall|].
  destruct v; apply Hnext.
Qed.

(** X1. A record in the values-only legacy encoding without ["message"] is
    normalised in place: every byte-sequence value is replaced by its text,
    every other entry is kept, and the keys and their order are those of
    the decoded record. *)
Theorem legacy_values_decoded_in_place (d : dict) :
  NoDup (keys d) ->
  text_keyed d = true ->
  dict_get (KStr "message") d = None ->
  normalize (VDict d) = inr (map decode_value d) /\
  keys (map decode_value d) = keys d /\
  (forall k raw, ~ In (k, VBytes raw) (map decode_value d)).
Proof.
  intros Hnd Hall Hmsg. split; [|split].
  - unfold normalize. rewrite Hmsg.
    exact (legacy_pass_text_keyed d Hall [] Hnd).
  - unfold keys. rewrite map_map. apply map_ext.
    intros [k v]. now destruct v.
  - intros k raw Hin. apply in_map_iff in Hin as ([k' v'] & Heq & _).
    destruct v'; discriminate Heq.
Qed.

(** The only exception a turn of the legacy pass raises. *)
Lemma legacy_entry_raises (kv : key * value) (acc : dict) (e : exn) :
  legacy_entry kv acc = inl e -> e = UnicodeDecodeError.
Proof.
  destruct kv as [k v]. unfold legacy_entry, decode.
  destruct v as [| | | | |raw| |], k as [t|rawk];
    try discriminate;
    try (destruct (utf8_valid rawk); intros H; inversion H; reflexivity).
  - destruct (utf8_valid raw); intros H; inversion H; reflexivity.
  - destruct (utf8_valid raw); [|intros H; inversion H; reflexivity].
    destruct (utf8_valid rawk); intros H; inversion H; reflexivity.
Qed.

Lemma legacy_entry_undecodable (kv : key * value) (acc : dict) :
  undecodable_entry kv = true ->
  legacy_entry kv acc = inl UnicodeDecodeError.
Proof.
  destruct kv as [k v]. unfold undecodable_entry, legacy_entry, decode. simpl.
  destruct v as [| | | | |raw| |], k as [t|rawk]; simpl;
    try discriminate;
    try (destruct (utf8_valid rawk); [discriminate|reflexivity]).
  - destruct (utf8_valid raw); [discriminate|reflexivity].
  - destruct (utf8_valid raw); [|reflexivity].
    destruct (utf8_valid rawk); [discriminate|reflexivity].
Qed.

Lemma legacy_pass_raises (items acc : dict) (e : exn) :
  legacy_pass items acc = inl e -> e = UnicodeDecodeError.
Proof.
  revert acc. induction items as [|kv items IH]; intros acc; simpl.
  - discriminate.
  - destruct (legacy_entry kv acc) as [e'|acc'] eqn:Hentry.
    + intros H. inversion H; subst. now apply (legacy_entry_raises kv acc).
    + apply IH.
Qed.

Lemma legacy_pass_undecodable (items : dict) :
  existsb undecodable_entry items = true ->
  forall acc, legacy_pass items acc = inl UnicodeDecodeError.
Proof.
  induction items as [|kv items IH]; simpl; [discriminate|].
  intros Hbad acc.
  destruct (legacy_entry kv acc) as [e|acc'] eqn:Hentry.
  - now rewrite (legacy_entry_raises kv acc e Hentry).
  - apply orb_prop in Hbad as [Hhead|Htail].
    + rewrite legacy_entry_undecodable in Hentry by assumption. discriminate.
    + now apply IH.
Qed.

(** X2. In a mapping without ["message"], one byte-sequence key or value
    that is not well-formed UTF-8 makes the normalisation raise
    [UnicodeDecodeError], the only exception it raises on a mapping; the
    turn then logs the loop warning and goes on, and nothing of the record
    reaches the sink. *)
Theorem undecodable_record_is_dropped
    (d : dict) (o : Obs) (a : Z) (m : list byte) (s : Server) :
  dict_get (KStr "message") d = None ->
  existsb undecodable_entry d = true ->
  polled o = Event a -> received o = inr m -> unpacked o = inr (VDict d) ->
  normalize (VDict d) = inl UnicodeDecodeError /\
  (forall d0 e, normalize (VDict d0) = inl e -> e = UnicodeDecodeError) /\
  exists s',
    guarded (receive o) s = (inr Continue, s') /\
    sink s' = sink s /\
    sentinel_event s' = sentinel_event s /\
    journal s' = journal s ++ [loop_warning].
Proof.
  intros Hmsg Hbad Hp Hr Hu.
  assert (Hnorm : normalize (VDict d) = inl UnicodeDecodeError).
  { unfold normalize. rewrite Hmsg. now apply legacy_pass_undecodable. }
  split; [exact Hnorm|]. split.
  - intros d0 e. unfold normalize.
    destruct (dict_get (KStr "message") d0); [discriminate|].
    apply legacy_pass_raises.
  - destruct (receive_raises o UnicodeDecodeError s) as (s' & Hrun & Hsink & Hsen & _ & Hj).
    + apply (raises_normalize o _ a m (VDict d)); auto. discriminate.
    + exists s'. simpl in Hrun, Hj. auto.
Qed.

(** X3. A payload that decodes to something other than [None] or a mapping
    (a number, a string, a list, ...) raises [TypeError] when subscripted:
    the turn logs the loop warning and goes on, nothing reaches the sink and
    the sentinel signal is left alone. *)
Theorem non_mapping_payload_is_dropped
    (w : value) (o : Obs) (a : Z) (m : list byte) (s : Server) :
  w <> VNone ->
  (forall d, w <> VDict d) ->
  polled o = Event a -> received o = inr m -> unpacked o = inr w ->
  normalize w = inl TypeError /\
  exists s',
    guarded (receive o) s = (inr Continue, s') /\
    sink s' = sink s /\
    sentinel_event s' = sentinel_event s /\
    journal s' = journal s ++ [loop_warning].
Proof.
  intros Hnone Hmap Hp Hr Hu.
  assert (Hnorm : normalize w = inl TypeError).
  { destruct w; try reflexivity. now destruct (Hmap d). }
  split; [exact Hnorm|].
  destruct (receive_raises o TypeError s) as (s' & Hrun & Hsink & Hsen & _ & Hj).
  - now apply (raises_normalize o _ a m w).
  - exists s'. simpl in Hrun, Hj. auto.
Qed.

Lemma dict_set_keys (k : key) (v : value) (d : dict) :
  keys (dict_set k v d) = keys d \/
  (~ In k (keys d) /\ keys (dict_set k v d) = keys d ++ [k]).
Proof.
  induction d as [|[k' v'] d IH]; simpl.
  - right. auto.
  - destruct (key_eqb k k') eqn:E; simpl; [now left|].
    destruct IH as [Hsame|[Hout Hnew]].
    + left. now rewrite Hsame.
    + right. split; [|now rewrite Hnew].
      intros [->|Hin]; [|contradiction].
      now rewrite key_eqb_refl in E.
Qed.

Lemma legacy_entry_keys (kv : key * value) (acc acc' : dict) :
  legacy_entry kv acc = inr acc' ->
  exists extra,
    keys acc' = keys acc ++ extra /\
    (NoDup (keys acc) -> NoDup (keys acc')) /\
    Forall (fun k => exists t, k = KStr t) extra.
Proof.
  assert (Hset : forall t v, exists extra,
             keys (dict_set (KStr t) v acc) = keys acc ++ extra /\
             (NoDup (keys acc) -> NoDup (keys (dict_set (KStr t) v acc))) /\
             Forall (fun k => exists t, k = KStr t) extra).
  { intros t v. destruct (dict_set_keys (KStr t) v acc) as [Hsame|[Hout Hnew]].
    - exists []. rewrite Hsame, app_nil_r. auto.
    - exists [KStr t]. rewrite Hnew. split; [reflexivity|]. split.
      + intros Hnd. apply NoDup_app; auto.
        * constructor; [intros []|constructor].
        * intros x Hx [Heq|[]]. subst. contradiction.
      + constructor; eauto. }
  assert (Hkeep : exists extra,
             keys acc = keys acc ++ extra /\
             (NoDup (keys acc) -> NoDup (keys acc)) /\
             Forall (fun k => exists t, k = KStr t) extra).
  { exists []. rewrite app_nil_r. auto. }
  destruct kv as [k v]. unfold legacy_entry.
  destruct v as [| | | | |raw| |], k as [t|rawk];
    try (intros H; inversion H; subst; exact Hkeep);
    try (destruct (decode rawk) as [e|tk]; [discriminate|];
         intros H; inversion H; subst; apply Hset).
  - destruct (decode raw) as [e|tv]; [discriminate|].
    intros H; inversion H; subst; apply Hset.
  - destruct (decode raw) as [e|tv]; [discriminate|].
    destruct (decode rawk) as [e|tk]; [discriminate|].
    intros H; inversion H; subst; apply Hset.
Qed.

(** X4. The normalisation never removes or reorders a key: the keys of the
    result are the keys of the decoded mapping, in their order, followed by
    the text keys it added; and it keeps the keys pairwise distinct. *)
Theorem normalize_keeps_keys (d d' : dict) :
  normalize (VDict d) = inr d' ->
  exists extra,
    keys d' = keys d ++ extra /\
    (NoDup (keys d) -> NoDup (keys d')) /\
    Forall (fun k => exists t, k = KStr t) extra.
Proof.
  unfold normalize. destruct (dict_get (KStr "message") d).
  - intros H. inversion H; subst. exists []. rewrite app_nil_r. auto.
  - generalize d at 1 as items. intros items. revert d.
    induction items as [|kv items IH]; intros acc; simpl.
    + intros H. inversion H; subst. exists []. rewrite app_nil_r. auto.
    + destruct (legacy_entry kv acc) as [e|acc1] eqn:Hentry; [discriminate|].
      intros Hrest.
      destruct (legacy_entry_keys kv acc acc1 Hentry) as (x1 & Hk1 & Hnd1 & Ht1).
      destruct (IH acc1 Hrest) as (x2 & Hk2 & Hnd2 & Ht2).
      exists (x1 ++ x2).
      split; [now rewrite Hk2, Hk1, <- app_assoc|]. split.
      * intros Hnd. apply Hnd2, Hnd1, Hnd.
      * apply Forall_app. split; assumption.
Qed.

End CodecMore.

(** ** Every turn of the loop *)

Section TurnMore.

Import Codec LogServer Scenario Cases.

(** A turn is idle, meets the sentinel, meets a valid record, or raises. *)
Lemma turn_cases (o : Obs) :
  idle o \/ sentinel_turn o \/ (exists d, valid_record o d) \/
  (exists e, raises o e).
Proof.
  destruct (polled o) as [|a|e] eqn:Hp.
  - now left.
  - destruct (received o) as [e|m] eqn:Hr.
    { right; right; right. exists e. now apply (raises_recv o e a). }
    destruct (unpacked o) as [e|w] eqn:Hu.
    { right; right; right. exists e. now apply (raises_loads o e a m). }
    assert (Hrecord : w <> VNone ->
              (exists d, valid_record o d) \/ (exists e, raises o e)).
    { intros Hw. destruct (normalize w) as [e|d] eqn:Hn.
      - right. exists e. now apply (raises_normalize o e a m w).
      - destruct (handled o) as [e|] eqn:Hh.
        + right. exists e. now apply (raises_handle o e a m w d).
        + left. exists d. now apply (valid_record_intro o d a m w). }
    destruct w; try (right; right; apply Hrecord; discriminate).
    right; left. now apply (sentinel_turn_intro o a m).
  - right; right; right. exists e. now apply raises_poll.
Qed.

(** What the body of any turn does to the sink and the two signals. *)
Lemma receive_effect (o : Obs) (s : Server) :
  exists f s',
    guarded (receive o) s = (inr f, s') /\
    (sink s' = sink s \/
     (f = Continue /\ exists d, valid_record o d /\
                               sink s' = sink s ++ [delivered d])) /\
    (sentinel_event s' = sentinel_event s \/
     (f = Break /\ sentinel_turn o /\ sentinel_event s' = true)) /\
    running_event s' = running_event s.
Proof.
  destruct (turn_cases o) as [Hidle|[Hsen|[[d Hrec]|[e Hraise]]]].
  - exists Continue, (with_now (now s + 1000) s).
    rewrite receive_idle by assumption. simpl. auto.
  - destruct (receive_sentinel o s Hsen) as (s' & Hrun & Hset & Hsink & Hflag & _).
    exists Break, s'. repeat split; auto.
  - destruct (receive_record o d s Hrec) as (s' & Hrun & Hsink & _ & Hflag & Hsen & _).
    exists Continue, s'. repeat split; eauto.
  - destruct (receive_raises o e s Hraise) as (s' & Hrun & Hsink & Hsen & Hflag & _).
    eexists; exists s'. repeat split; eauto.
Qed.

(** The deadline check keeps a deadline that is set, and sets none while
    the flag is set. *)
Lemma drain_check_deadline (et : option Z) (s : Server) :
  exists f et' s',
    drain_check et s = (inr (f, et'), s') /\
    (forall d, et = Some d -> et' = Some d) /\
    (running_event s = true -> et' = et /\ f = Continue).
Proof.
  unfold drain_check, bind, is_set_running.
  destruct (running_event s).
  - exists Continue, et, s. simpl. auto.
  - destruct et as [d|]; unfold time_time, log, emit, ret; simpl;
      match goal with
      | |- context [?a <=? ?b] => destruct (a <=? b)
      end;
      eexists; eexists; eexists; (split; [reflexivity|]);
      (split; [intros d' H; inversion H; reflexivity|discriminate]) ||
      (split; [discriminate|discriminate]).
Qed.

(** What any turn does: it raises nothing; the sink gains at most the valid
    record of the turn; the sentinel signal changes only by a sentinel turn,
    which breaks; the running flag can only go down; a deadline that is set
    stays. *)
Lemma iteration_effect (o : Obs) (et : option Z) (s : Server) :
  exists f et' s',
    iteration o et s = (inr (f, et'), s') /\
    (sink s' = sink s \/
     (f = Continue /\ exists d, valid_record o d /\
                               sink s' = sink s ++ [delivered d])) /\
    (sentinel_event s' = sentinel_event s \/
     (f = Break /\ sentinel_turn o /\ sentinel_event s' = true)) /\
    running_event s' = (running_event s && negb (ctl_clear o))%bool /\
    (forall d, et = Some d -> et' = Some d).
Proof.
  destruct (controller_clears_frame o s)
    as (sc & Hc & Hsinkc & Hsenc & _ & _ & Hrunc).
  destruct (drain_check_frame et sc) as (c & s0 & Hd & Hsink0 & Hsen0 & Hrun0 & _).
  destruct (drain_check_deadline et sc) as (f0 & et' & s0' & Hd' & Hkeep & _).
  rewrite Hd in Hd'. inversion Hd'; subst c s0'. clear Hd'.
  destruct (receive_effect o s0) as (f & s' & Hbody & Hsink & Hsen & Hrun).
  assert (Hit : iteration o et s =
                match f0 with
                | Break => (inr (Break, et'), s0)
                | Continue => (inr (f, et'), s')
                end).
  { unfold iteration, bind at 1 2. rewrite Hc, Hd.
    destruct f0; [|reflexivity]. unfold bind, ret. now rewrite Hbody. }
  destruct f0.
  - exists f, et', s'. split; [exact Hit|].
    rewrite Hsink0, Hsinkc in Hsink. rewrite Hsen0, Hsenc in Hsen.
    repeat split; auto. congruence.
  - exists Break, et', s0. split; [exact Hit|].
    repeat split; auto; try (left; congruence). congruence.
Qed.

End TurnMore.

(** ** Every run of the loop *)

Section RunMore.

Import Codec LogServer Scenario Cases.

(** X5. Whatever arrives and whatever the controller does, the loop raises
    nothing, never touches what the sink already holds, and hands it at
    most one record per turn. *)
Theorem sink_only_grows (os : list Obs) (et : option Z) (s : Server) :
  exists f et' s' extra,
    while_true os et s = (inr (f, et'), s') /\
    sink s' = sink s ++ extra /\
    (List.length extra <= List.length os)%nat.
Proof.
  revert et s. induction os as [|o os IH]; intros et s.
  - exists Continue, et, s, []. simpl. rewrite app_nil_r. auto.
  - destruct (iteration_effect o et s) as (f & et1 & s1 & Hit & Hsink & _).
    simpl. unfold bind. rewrite Hit.
    destruct f.
    + destruct (IH et1 s1) as (f' & et' & s' & extra & Hloop & Hgrow & Hlen).
      rewrite Hloop.
      destruct Hsink as [Hsame|(_ & d & _ & Hone)].
      * exists f', et', s', extra. rewrite Hgrow, Hsame. auto.
      * exists f', et', s', (delivered d :: extra).
        rewrite Hgrow, Hone, <- app_assoc. simpl.
        repeat split; auto. lia.
    + destruct Hsink as [Hsame|(Hcont & _)]; [|discriminate].
      exists Break, et1, s1, []. rewrite app_nil_r. simpl.
      repeat split; auto. lia.
Qed.

(** X6. The worker sets the sentinel signal only for a sentinel it has
    decoded, and it has left the loop whenever it has set it: if no turn
    decodes the sentinel the signal is as before, and if the signal goes
    from cleared to set the loop has ended by [break]. *)
Theorem sentinel_signal_means_sentinel (os : list Obs) (et : option Z) (s : Server) :
  (no_sentinel os ->
   sentinel_event (snd (while_true os et s)) = sentinel_event s) /\
  (sentinel_event s = false ->
   sentinel_event (snd (while_true os et s)) = true ->
   exists et', fst (while_true os et s) = inr (Break, et')).
Proof.
  revert et s. induction os as [|o os IH]; intros et s.
  - split; [reflexivity|]. simpl. congruence.
  - destruct (iteration_effect o et s) as (f & et1 & s1 & Hit & _ & Hsen & _).
    simpl. unfold bind. rewrite Hit.
    destruct (IH et1 s1) as [IHquiet IHset].
    split.
    + intros Hnone. inversion Hnone as [|? ? Ho Hos]; subst.
      assert (Hkeep : sentinel_event s1 = sentinel_event s).
      { destruct Hsen as [Hsame|(_ & [a m _ _ Hu] & _)]; [exact Hsame|].
        contradiction. }
      destruct f; simpl; [|exact Hkeep].
      now rewrite IHquiet.
    + intros Hoff Hon. destruct f; simpl in *.
      * destruct Hsen as [Hsame|(Hbreak & _)]; [|discriminate].
        apply IHset; congruence.
      * eauto.
Qed.

(** X7. Once the running flag is cleared and the deadline is set, no turn
    sets the flag again or moves the deadline: whatever arrives during the
    drain, the worker stays in the drain phase with the deadline it first
    took. *)
Theorem drain_is_irrevocable (os : list Obs) (d : Z) (s : Server) :
  running_event s = false ->
  exists f s',
    while_true os (Some d) s = (inr (f, Some d), s') /\
    running_event s' = false.
Proof.
  revert s. induction os as [|o os IH]; intros s Hoff.
  - exists Continue, s. auto.
  - destruct (iteration_effect o (Some d) s)
      as (f & et1 & s1 & Hit & _ & _ & Hrun & Hkeep).
    rewrite (Hkeep d eq_refl) in Hit.
    rewrite Hoff in Hrun. simpl in Hrun.
    simpl. unfold bind. rewrite Hit.
    destruct f.
    + now apply IH.
    + exists Break, s1. auto.
Qed.

(** The loop raises nothing. *)
Lemma while_true_returns (os : list Obs) (et : option Z) (s : Server) :
  exists f et' s', while_true os et s = (inr (f, et'), s').
Proof.
  destruct (sink_only_grows os et s) as (f & et' & s' & _ & H & _). eauto.
Qed.

(** X8. Once it has bound its socket the worker raises nothing, and when
    it returns, whatever made it leave the loop, the last things it did
    were to close the socket with a linger of 1 millisecond, to terminate
    the context and to log its end. *)
Theorem worker_releases_its_socket (os : list Obs) (s : Server) :
  exists st s',
    process_logs None os s = (inr st, s') /\
    (st = Returned -> exists before, journal s' = before ++ release).
Proof.
  rewrite process_logs_bound. cbv zeta.
  match goal with
  | |- context [while_true os None ?x] =>
      destruct (while_true_returns os None x) as (f & et' & s1 & Hloop);
      rewrite Hloop
  end.
  destruct f.
  - exists Looping, s1. split; [reflexivity|discriminate].
  - eexists; eexists. split; [reflexivity|]. intros _.
    exists (journal s1). reflexivity.
Qed.

(** X9. Once the worker has returned, by the sentinel, by the deadline or
    by an exception of the first [except] clause, whatever arrives later
    is never received: the outcome is the same with any further turns. *)
Theorem nothing_is_received_after_return
    (os rest : list Obs) (s s' : Server) :
  process_logs None os s = (inr Returned, s') ->
  process_logs None (os ++ rest) s = (inr Returned, s').
Proof.
  rewrite !process_logs_bound. cbv zeta. rewrite while_true_app.
  match goal with
  | |- context [while_true os None ?x] =>
      destruct (while_true os None x) as [[e|[[|] et']] s1]
  end; try discriminate.
  auto.
Qed.

(** With the running flag set and untouched, idle turns only let time
    pass. *)
Lemma while_true_idle_running (os : list Obs) :
  Forall idle os ->
  undisturbed os ->
  forall (et : option Z) (s : Server),
    running_event s = true ->
    exists s',
      while_true os et s = (inr (Continue, et), s') /\
      now s' = now s + 1000 * Z.of_nat (List.length os) /\
      sink s' = sink s /\ journal s' = journal s /\
      sentinel_event s' = sentinel_event s /\ running_event s' = true.
Proof.
  induction 1 as [|o os Hidle _ IH]; intros Hquiet et s Hrun.
  - exists s. simpl. repeat split; auto. lia.
  - inversion Hquiet as [|? ? Hclr Hquiet']; subst.
    simpl while_true. unfold bind at 1.
    rewrite iteration_running, receive_idle by assumption.
    destruct (IH Hquiet' et (with_now (now s + 1000) s) Hrun)
      as (s' & Hloop & Hnow & Hsink & Hj & Hsen & Hrun').
    exists s'. rewrite Hloop.
    cbn [now with_now sink journal sentinel_event] in *.
    change (List.length (o :: os)) with (S (List.length os)).
    repeat split; auto. lia.
Qed.

(** X10. With no traffic and the running flag left alone the worker stays
    in its loop for as long as one watches: every turn lasts exactly the
    poll timeout of 1000 milliseconds, and after binding and setting the
    ready signal it logs nothing, delivers nothing and sets no signal. *)
Theorem idle_worker_keeps_polling (os : list Obs) (s : Server) :
  Forall idle os ->
  undisturbed os ->
  exists s',
    process_logs None os s = (inr Looping, s') /\
    now s' = now s + 1000 * Z.of_nat (List.length os) /\
    sink s' = sink s /\
    sentinel_event s' = sentinel_event s /\
    journal s' = journal s ++ [PullerBind (log_host s) (log_port s); RunningSet].
Proof.
  intros Hidle Hquiet.
  rewrite process_logs_bound. cbv zeta.
  match goal with
  | |- context [while_true os None ?x] =>
      destruct (while_true_idle_running os Hidle Hquiet None x eq_refl)
        as (s' & Hloop & Hnow & Hsink & Hj & Hsen & _);
      rewrite Hloop
  end.
  exists s'. auto.
Qed.

(** X11. An [EOFError], [KeyboardInterrupt] or [SystemExit] raised in a
    turn ends the worker without a trace: the records before it are in the
    sink, the worker closes its socket and returns, it logs no warning and
    it does not set the sentinel signal, and later turns are not run. *)
Theorem breaking_exception_ends_worker_silently
    (os rest : list Obs) (ds : list dict) (o : Obs) (e : exn) (s : Server) :
  stream os ds ->
  undisturbed (os ++ [o]) ->
  raises o e ->
  leaves_loop e = true ->
  exists s',
    process_logs None (os ++ o :: rest) s = (inr Returned, s') /\
    sink s' = sink s ++ map delivered ds /\
    sentinel_event s' = sentinel_event s /\
    journal s' =
      journal s ++ [PullerBind (log_host s) (log_port s); RunningSet] ++ release.
Proof.
  intros Hstream Hquiet Hraise Hkind.
  apply Forall_app in Hquiet as [Hquiet Hlast].
  inversion Hlast as [|? ? Hclr _]; subst.
  rewrite process_logs_bound. cbv zeta.
  match goal with
  | |- context [while_true _ None ?x] =>
      destruct (while_true_stream os ds Hstream Hquiet None x eq_refl)
        as (s1 & Hloop & Hsink & Hsen & Hrun & Hj)
  end.
  destruct (receive_raises o e s1 Hraise) as (s2 & Hbody & Hsink2 & Hsen2 & _ & Hj2).
  rewrite Hkind in Hbody, Hj2.
  rewrite while_true_app, Hloop. simpl while_true. unfold bind at 1.
  rewrite iteration_running, Hbody by assumption. simpl.
  eexists. split; [reflexivity|]. simpl in *.
  rewrite Hsink2, Hsink, Hsen2, Hsen, Hj2, Hj, app_nil_r, <- app_assoc.
  auto.
Qed.

End RunMore.

(** ** The controller, further *)

Section ControllerMore.

Import Codec LogServer Scenario Cases.

(** X12. If sending the sentinel raises, [stop] still closes the transient
    sender and its context, which takes at most the linger period, and then
    lets the exception out: it logs no warning, does not clear the running
    flag and does not join the worker thread. *)
Theorem stop_send_failure (f : Fate) (e : exn) (s : Server) :
  send_raises f = Some e ->
  exists s',
    stop f s = (inl e, s') /\
    journal s' =
      journal s ++
      [Log INFO "%s stopping...";
       SenderConnect (log_host s) (log_port s);
       SenderSend sentinel_payload;
       SenderClose 1000;
       ContextTerm] /\
    running_event s' = running_event s /\
    sentinel_event s' = sentinel_event s /\
    now s' = now s + Z.max 0 (Z.min (linger f) 1000).
Proof.
  intros Hsend.
  unfold stop, try_finally, close_sender, bind, get, log, emit, ret, raise,
    elapse.
  rewrite Hsend. simpl.
  eexists. split; [reflexivity|]. simpl.
  repeat rewrite <- app_assoc. auto.
Qed.

(** X13. A [start] that gave up does not stop the worker it started: when
    that worker binds after the 5 seconds, it sets the ready signal that
    [start] had cleared and serves the records that arrive as if [start]
    had succeeded. *)
Theorem late_worker_serves_after_failed_start
    (ready_after : Z) (os : list Obs) (ds : list dict) (s : Server) :
  seconds 5 < ready_after ->
  stream os ds ->
  undisturbed os ->
  exists s1 s2,
    start None ready_after s =
      (inl (RuntimeError "Failed to start the log server"), s1) /\
    running_event s1 = false /\
    process_logs None os s1 = (inr Looping, s2) /\
    running_event s2 = true /\
    sink s2 = sink s ++ map delivered ds.
Proof.
  intros Hlate Hstream Hquiet.
  assert (Hslow : (ready_after <=? 5000) = false)
    by (apply Z.leb_gt; unfold seconds in Hlate; lia).
  assert (Hstart : exists s1,
             start None ready_after s =
               (inl (RuntimeError "Failed to start the log server"), s1) /\
             running_event s1 = false /\ sink s1 = sink s).
  { unfold start, running_event_wait, bind, log, emit, ret, time_time,
      is_set_running, clear_running, raise.
    simpl. rewrite Hslow. simpl.
    eexists. split; [reflexivity|]. simpl. auto. }
  destruct Hstart as (s1 & Hstart & Hoff & Hsink1).
  exists s1.
  rewrite process_logs_bound. cbv zeta.
  match goal with
  | |- context [while_true os None ?x] =>
      destruct (while_true_stream os ds Hstream Hquiet None x eq_refl)
        as (s2 & Hloop & Hsink & _ & Hrun & _);
      rewrite Hloop
  end.
  exists s2. simpl in Hsink. rewrite Hsink1 in Hsink. auto.
Qed.

(** X14. [start] gives the server fresh signals: whatever state an earlier
    [start] or [stop] left, its outcome is the same, and it leaves the
    sentinel signal cleared, so that an acknowledgement of an earlier
    shutdown is never taken for one of the next. *)
Theorem start_resets_signals
    (bind_raises : option exn) (ready_after : Z) (f : Fate) (s : Server) :
  fst (start bind_raises ready_after (snd (stop f s))) =
    fst (start bind_raises ready_after s) /\
  running_event (snd (start bind_raises ready_after (snd (stop f s)))) =
    running_event (snd (start bind_raises ready_after s)) /\
  sentinel_event (snd (start bind_raises ready_after (snd (stop f s)))) = false /\
  acked f (snd (start bind_raises ready_after (snd (stop f s)))) =
    match ack_after f with
    | Some t => t <=? seconds 5
    | None => false
    end.
Proof.
  assert (Hany : forall x : Server,
            fst (start bind_raises ready_after x) =
              (if (ready_after <=? 5000)
               then match bind_raises with
                    | None => inr tt
                    | Some _ =>
                        inl (RuntimeError "Failed to start the log server")
                    end
               else inl (RuntimeError "Failed to start the log server")) /\
            running_event (snd (start bind_raises ready_after x)) =
              (if (ready_after <=? 5000)
               then match bind_raises with
                    | None => true
                    | Some _ => false
                    end
               else false) /\
            sentinel_event (snd (start bind_raises ready_after x)) = false).
  { intros x.
    unfold start, running_event_wait, process_logs, bind, get, log, emit, ret,
      time_time, is_set_running, clear_running, set_running, raise, in_thread,
      elapse.
    simpl.
    destruct (ready_after <=? 5000); simpl; [|auto].
    destruct bind_raises as [e|]; simpl; [|auto].
    destruct e; simpl; auto. }
  destruct (Hany (snd (stop f s))) as (H1 & H2 & H3).
  destruct (Hany s) as (H4 & H5 & _).
  unfold acked. rewrite H3. simpl.
  repeat split; congruence.
Qed.

End ControllerMore.

(** ** The level the server is configured with *)

Section PluginMore.

Import Plugin Cases.

Lemma py_min_least (levels : list Z) :
  levels <> [] ->
  exists n,
    py_min levels = inr n /\ In n levels /\ forall x, In x levels -> n <= x.
Proof.
  induction levels as [|x rest IH]; [congruence|]. intros _.
  destruct rest as [|y rest'].
  - exists x. simpl. repeat split; auto.
    intros z [->|[]]. lia.
  - destruct IH as (m & Hm & Hin & Hleast); [discriminate|].
    exists (Z.min x m).
    split; [cbn [py_min] in *; now rewrite Hm|].
    split.
    + destruct (Z.min_spec x m) as [[_ ->]|[_ ->]]; [now left|now right].
    + intros z [->|Hz]; [lia|]. specialize (Hleast z Hz). lia.
Qed.

Lemma pop_first_subset (x y : Z) (levels : list Z) :
  In y (pop_first x levels) -> In y levels.
Proof.
  induction levels as [|z rest IH]; simpl; [auto|].
  destruct (x =? z); [now right|].
  intros [->|H]; [now left|right; auto].
Qed.

Lemma pop_first_keeps (x y : Z) (levels : list Z) :
  y <> x -> In y levels -> In y (pop_first x levels).
Proof.
  intros Hne. induction levels as [|z rest IH]; simpl; [auto|].
  destruct (x =? z) eqn:E.
  - apply Z.eqb_eq in E. subst z. intros [->|H]; [congruence|exact H].
  - intros [->|H]; [now left|right; auto].
Qed.

Lemma session_levels_origin (cli file : setting) (n : Z) :
  In n (session_levels cli file) ->
  n = logging_ERROR \/ cli = Level n \/ file = Level n.
Proof.
  unfold session_levels. intros H.
  assert (Hall : In n (append_level file (append_level cli [logging_ERROR]))).
  { destruct (existsb _ _); [now apply pop_first_subset in H|exact H]. }
  destruct cli as [| |c], file as [| |g]; simpl in Hall;
    intuition (subst; auto).
Qed.

Lemma session_levels_has_error (cli file : setting) :
  In logging_ERROR (session_levels cli file).
Proof.
  unfold session_levels.
  assert (Hall : In logging_ERROR
                   (append_level file (append_level cli [logging_ERROR]))).
  { destruct cli, file; simpl; auto. }
  destruct (existsb _ _); [|exact Hall].
  apply pop_first_keeps; [discriminate|exact Hall].
Qed.

(** X15. [pytest_configure] never takes the minimum of an empty list, and
    the level it passes on is never above [ERROR]: it is [ERROR] or one of
    the two levels it read, and no level that is left after the removal of
    [NOTSET] is below it. *)
Theorem session_level_is_bounded (cli file : setting) :
  exists n,
    session_level cli file = inr n /\
    pytest_configure cli file = inr (getLevelName n) /\
    n <= logging_ERROR /\
    (n = logging_ERROR \/ cli = Level n \/ file = Level n).
Proof.
  pose proof (session_levels_has_error cli file) as Herr.
  destruct (py_min_least (session_levels cli file)) as (n & Hmin & Hin & Hleast).
  { intros Hnil. rewrite Hnil in Herr. contradiction. }
  exists n. unfold pytest_configure, session_level. rewrite Hmin.
  split; [reflexivity|]. split; [reflexivity|].
  split; [now apply Hleast|now apply session_levels_origin].
Qed.

Lemma session_levels_plain (cli file : setting) :
  cli <> Level logging_NOTSET ->
  file <> Level logging_NOTSET ->
  session_levels cli file = append_level file (append_level cli [logging_ERROR]).
Proof.
  intros Hc Hf. unfold session_levels.
  assert (Hnone : existsb (Z.eqb logging_NOTSET)
                    (append_level file (append_level cli [logging_ERROR])) = false).
  { assert (Hz : forall z, Level z <> Level logging_NOTSET ->
                           (logging_NOTSET =? z) = false).
    { intros z Hne. apply Z.eqb_neq. intros Heq. apply Hne. now rewrite Heq. }
    destruct cli as [| |c], file as [| |g];
      cbn [append_level app existsb];
      rewrite ?(Hz _ Hc), ?(Hz _ Hf); reflexivity. }
  now rewrite Hnone.
Qed.

(** X16. When neither level read is [NOTSET], the server is configured
    with the lowest of [ERROR] and the levels that are set; with none set
    that is ["ERROR"]. *)
Theorem session_level_is_lowest (cli file : setting) :
  cli <> Level logging_NOTSET ->
  file <> Level logging_NOTSET ->
  session_level cli file = inr (lower cli (lower file logging_ERROR)) /\
  ((forall n, cli <> Level n) -> (forall n, file <> Level n) ->
   pytest_configure cli file = inr "ERROR").
Proof.
  intros Hc Hf.
  assert (Hlevel : session_level cli file =
                   inr (lower cli (lower file logging_ERROR))).
  { unfold session_level. rewrite session_levels_plain by assumption.
    destruct cli as [| |c], file as [| |g];
      cbn [append_level app py_min lower]; f_equal; lia. }
  split; [exact Hlevel|].
  intros Hnc Hnf. unfold pytest_configure. rewrite Hlevel.
  destruct cli as [| |c]; [| |now destruct (Hnc c)];
    (destruct file as [| |g]; [| |now destruct (Hnf g)]); reflexivity.
Qed.

(** X17. Only the first [NOTSET] is removed: a single level read as
    [NOTSET] counts as not set, but when both levels are [NOTSET] one of
    them stays and the server is configured with ["NOTSET"]. *)
Theorem only_first_notset_is_removed (other : setting) :
  (other <> Level logging_NOTSET ->
   session_level (Level logging_NOTSET) other = session_level IsNone other /\
   session_level other (Level logging_NOTSET) = session_level other IsNone) /\
  session_levels (Level logging_NOTSET) (Level logging_NOTSET) =
    [logging_ERROR; logging_NOTSET] /\
  pytest_configure (Level logging_NOTSET) (Level logging_NOTSET) = inr "NOTSET".
Proof.
  split; [|split; reflexivity].
  intros Hother.
  assert (Hz : forall z, Level z <> Level logging_NOTSET ->
                         (logging_NOTSET =? z) = false).
  { intros z Hne. apply Z.eqb_neq. intros Heq. apply Hne. now rewrite Heq. }
  unfold session_level, session_levels.
  destruct other as [| |g]; try (split; reflexivity).
  cbn [append_level app existsb pop_first].
  change (logging_NOTSET =? logging_ERROR) with false.
  change (logging_NOTSET =? logging_NOTSET) with true.
  rewrite (Hz g Hother). cbn [orb].
  split; reflexivity.
Qed.

End PluginMore.

(** ** The further properties at concrete inputs *)

Section MoreInstances.

Import Codec LogServer Scenario Cases Plugin.

(** X1 at a record whose message is a byte sequence and whose level is a
    number. *)
Lemma legacy_values_decoded_in_place_witness :
  normalize (VDict [(KStr "msg", VBytes (b "hi")); (KStr "levelno", VInt 20)]) =
  inr (map decode_value [(KStr "msg", VBytes (b "hi")); (KStr "levelno", VInt 20)]).
Proof.
  apply (proj1 (legacy_values_decoded_in_place
                  [(KStr "msg", VBytes (b "hi")); (KStr "levelno", VInt 20)]
                  ltac:(constructor;
                        [intros [H|[]]; discriminate H
                        |constructor; [intros []|constructor]])
                  eq_refl eq_refl)).
Defined.

(** X2 at a record whose value is the single byte [0xff]. *)
Lemma undecodable_record_is_dropped_witness :
  normalize (VDict [(KStr "msg", VBytes [xff])]) = inl UnicodeDecodeError.
Proof.
  apply (proj1 (undecodable_record_is_dropped
                  [(KStr "msg", VBytes [xff])]
                  (turn_record (VDict [(KStr "msg", VBytes [xff])]) None)
                  0 [] fresh eq_refl eq_refl eq_refl eq_refl eq_refl)).
Defined.

(** X3 at the payload [7]. *)
Lemma non_mapping_payload_is_dropped_witness :
  normalize (VInt 7) = inl TypeError.
Proof.
  apply (proj1 (non_mapping_payload_is_dropped (VInt 7)
                  (turn_record (VInt 7) None) 0 [] fresh
                  ltac:(discriminate) ltac:(discriminate)
                  eq_refl eq_refl eq_refl)).
Defined.

(** X4 at a legacy record with one entry. *)
Lemma normalize_keeps_keys_witness :
  exists extra,
    keys [(KBytes (b "msg"), VBytes (b "hi")); (KStr "msg", VStr "hi")] =
      keys [(KBytes (b "msg"), VBytes (b "hi"))] ++ extra /\
    (NoDup (keys [(KBytes (b "msg"), VBytes (b "hi"))]) ->
     NoDup (keys [(KBytes (b "msg"), VBytes (b "hi")); (KStr "msg", VStr "hi")])) /\
    Forall (fun k => exists t, k = KStr t) extra.
Proof.
  apply (normalize_keeps_keys [(KBytes (b "msg"), VBytes (b "hi"))]).
  reflexivity.
Defined.

(** X6 at a run of an undecodable message and an idle poll. *)
Lemma sentinel_signal_means_sentinel_witness :
  sentinel_event (snd (while_true [turn_garbage; turn_idle false] None
                         (with_running true fresh))) =
  sentinel_event (with_running true fresh).
Proof.
  apply (proj1 (sentinel_signal_means_sentinel
                  [turn_garbage; turn_idle false] None (with_running true fresh))).
  constructor; [discriminate|]. constructor; [discriminate|constructor].
Defined.

(** X7 at a record that arrives during the drain. *)
Lemma drain_is_irrevocable_witness :
  exists f s',
    while_true [turn_record (VDict [(KStr "message", VStr "late")]) None]
      (Some 100) fresh = (inr (f, Some 100), s') /\
    running_event s' = false.
Proof.
  apply (drain_is_irrevocable _ 100 fresh). reflexivity.
Defined.

(** X8 at a worker that meets the sentinel at once. *)
Lemma worker_releases_its_socket_witness :
  exists st s',
    process_logs None [turn_record VNone None] fresh = (inr st, s') /\
    (st = Returned -> exists before, journal s' = before ++ release).
Proof.
  exact (worker_releases_its_socket [turn_record VNone None] fresh).
Defined.

(** X9 at a record that arrives after the sentinel. *)
Lemma nothing_is_received_after_return_witness :
  process_logs None
    ([turn_record VNone None]
     ++ [turn_record (VDict [(KStr "message", VStr "late")]) None]) fresh =
  (inr Returned, snd (process_logs None [turn_record VNone None] fresh)).
Proof.
  apply (nothing_is_received_after_return [turn_record VNone None]).
  reflexivity.
Defined.

(** X10 at three polls that time out. *)
Lemma idle_worker_keeps_polling_witness :
  exists s',
    process_logs None (repeat (turn_idle false) 3) fresh = (inr Looping, s') /\
    now s' = now fresh + 1000 * Z.of_nat (List.length (repeat (turn_idle false) 3)) /\
    sink s' = sink fresh /\
    sentinel_event s' = sentinel_event fresh /\
    journal s' =
      journal fresh ++ [PullerBind (log_host fresh) (log_port fresh); RunningSet].
Proof.
  apply (idle_worker_keeps_polling (repeat (turn_idle false) 3) fresh).
  - repeat constructor.
  - repeat constructor.
Defined.

(** X11 at a record followed by one whose handling raises [EOFError]. *)
Lemma breaking_exception_ends_worker_silently_witness :
  exists s',
    process_logs None
      ([turn_record (VDict [(KStr "message", VStr "a")]) None]
       ++ turn_record (VDict [(KStr "message", VStr "x")]) (Some EOFError)
       :: [turn_record (VDict [(KStr "message", VStr "late")]) None]) fresh =
      (inr Returned, s') /\
    sink s' = sink fresh ++ map delivered [[(KStr "message", VStr "a")]] /\
    sentinel_event s' = sentinel_event fresh /\
    journal s' =
      journal fresh ++
      [PullerBind (log_host fresh) (log_port fresh); RunningSet] ++ release.
Proof.
  apply (breaking_exception_ends_worker_silently _ _ _ _ EOFError fresh).
  - apply stream_record; [|apply stream_nil].
    apply (valid_record_intro _ _ 0 [] (VDict [(KStr "message", VStr "a")]));
      reflexivity.
  - repeat constructor.
  - apply (raises_handle _ _ 0 [] (VDict [(KStr "message", VStr "x")])
             [(KStr "message", VStr "x")]); try reflexivity; discriminate.
  - reflexivity.
Defined.

(** X12 at a send that raises the socket library's error. *)
Lemma stop_send_failure_witness :
  exists s',
    stop {| send_raises := Some ZMQError; ack_after := None; linger := 5;
            thread_exit := None |} (with_running true fresh) =
      (inl ZMQError, s') /\
    journal s' =
      journal (with_running true fresh) ++
      [Log INFO "%s stopping...";
       SenderConnect (log_host (with_running true fresh))
                     (log_port (with_running true fresh));
       SenderSend sentinel_payload;
       SenderClose 1000;
       ContextTerm] /\
    running_event s' = running_event (with_running true fresh) /\
    sentinel_event s' = sentinel_event (with_running true fresh) /\
    now s' =
      now (with_running true fresh) +
      Z.max 0 (Z.min (linger {| send_raises := Some ZMQError; ack_after := None;
                                linger := 5; thread_exit := None |}) 1000).
Proof.
  apply (stop_send_failure _ ZMQError (with_running true fresh)). reflexivity.
Defined.

(** X13 at a worker that binds after 6 seconds and then meets a record. *)
Lemma late_worker_serves_after_failed_start_witness :
  exists s1 s2,
    start None 6000 fresh =
      (inl (RuntimeError "Failed to start the log server"), s1) /\
    running_event s1 = false /\
    process_logs None [turn_record (VDict [(KStr "message", VStr "a")]) None] s1 =
      (inr Looping, s2) /\
    running_event s2 = true /\
    sink s2 = sink fresh ++ map delivered [[(KStr "message", VStr "a")]].
Proof.
  apply (late_worker_serves_after_failed_start 6000 _ _ fresh).
  - unfold seconds. lia.
  - apply stream_record; [|apply stream_nil].
    apply (valid_record_intro _ _ 0 [] (VDict [(KStr "message", VStr "a")]));
      reflexivity.
  - repeat constructor.
Defined.

(** X16 at a CLI level of [DEBUG] and a file level of [WARNING]. *)
Lemma session_level_is_lowest_witness :
  session_level (Level logging_DEBUG) (Level logging_WARNING) =
  inr (lower (Level logging_DEBUG) (lower (Level logging_WARNING) logging_ERROR)).
Proof.
  apply (proj1 (session_level_is_lowest (Level logging_DEBUG)
                  (Level logging_WARNING)
                  ltac:(discriminate) ltac:(discriminate))).
Defined.

(** X17 at a file level of [INFO]. *)
Lemma only_first_notset_is_removed_witness :
  session_level (Level logging_NOTSET) (Level logging_INFO) =
    session_level IsNone (Level logging_INFO) /\
  session_level (Level logging_INFO) (Level logging_NOTSET) =
    session_level (Level logging_INFO) IsNone.
Proof.
  apply (proj1 (only_first_notset_is_removed (Level logging_INFO))).
  discriminate.
Defined.

End MoreInstances.
